(** * claude-lsp-cli: the Zig checker, the status display and the
      dispatch core, against their specification

    The development follows the repository's layout:

    - [JS]        the JavaScript values the sources compute with: strings as
                  sequences of UTF-16 code units, [String.prototype.split],
                  [parseInt], and completions (normal or thrown);
    - [Regex]     the backtracking matcher behind [String.prototype.match],
                  for the fragment of regular expressions the checkers use;
    - [Zig]       [src/checkers/zig.ts]: [zigConfig.parseOutput];
    - [Status]    [src/cli/commands/help.ts]: [showStatus];
    - [Core]      the output formatter, the check engine and the hook
                  handler, which are specified but whose sources are not
                  part of the verified tree. *)

From Stdlib Require Import List NArith ZArith Lia String Ascii Bool.
From stdpp Require Import base list gmap strings pretty.

Local Open Scope N_scope.

(* ================================================================== *)
(** ** JavaScript values *)
(* ================================================================== *)

Module JS.

(** A JavaScript string is a sequence of UTF-16 code units. *)
Definition char := N.
Definition jsstring := list char.

(** ASCII literals of the sources, as code units. *)
Definition js (s : string) : jsstring :=
  map N_of_ascii (list_ascii_of_string s).

(** LineTerminator :: LF | CR | LS | PS *)
Definition isLineTerminator (c : char) : bool :=
  (c =? 0x0A) || (c =? 0x0D) || (c =? 0x2028) || (c =? 0x2029).

(** WhiteSpace, as [parseInt] and [trim] understand it (with the line
    terminators, which TrimString strips too). *)
Definition isWhiteSpace (c : char) : bool :=
  (c =? 0x09) || (c =? 0x0B) || (c =? 0x0C) || (c =? 0x20) || (c =? 0xA0)
  || (c =? 0x1680) || ((0x2000 <=? c) && (c <=? 0x200A))
  || (c =? 0x202F) || (c =? 0x205F) || (c =? 0x3000) || (c =? 0xFEFF)
  || isLineTerminator c.

(** [\d] *)
Definition isDigit (c : char) : bool := (48 <=? c) && (c <=? 57).

(** [s.split('\n')]: the pieces between the LF code units; the empty
    string gives one empty piece. *)
Fixpoint split_nl (s : jsstring) : list jsstring :=
  match s with
  | [] => [[]]
  | c :: s' =>
      if c =? 0x0A then [] :: split_nl s'
      else match split_nl s' with
           | l :: ls => (c :: l) :: ls
           | [] => [[c]]
           end
  end.

(** The Numbers that [parseInt] can return: NaN, an infinity, the
    negative zero, or a finite double whose value is the integer [z]. *)
Inductive number :=
| NaN
| Infinity (negative : bool)
| NegZero
| Num (z : Z).

(** What a double keeps of a non-negative integer: the integer itself
    while it has at most 53 significant bits, otherwise its 53 leading
    bits rounded to nearest, ties to even. *)
Definition round53 (n : N) : N :=
  let e := N.log2 n - 52 in
  if e =? 0 then n
  else
    let q := N.shiftr n e in
    let r := n - N.shiftl q e in
    let half := N.shiftl 1 (e - 1) in
    let q' :=
      if (half <? r) || ((r =? half) && N.odd q) then q + 1 else q in
    N.shiftl q' e.

(** The Number for a sign and a magnitude: the magnitude is rounded to a
    double, and is infinite when the rounding reaches 2^1024. *)
Definition to_number (negative : bool) (n : N) : number :=
  let v := round53 n in
  if 2 ^ 1024 <=? v then Infinity negative
  else if negative then (if v =? 0 then NegZero else Num (- Z.of_N v))
  else Num (Z.of_N v).

(** Value of a code unit as a digit, for radixes up to 36. *)
Definition digitVal (c : char) : option N :=
  if (48 <=? c) && (c <=? 57) then Some (c - 48)
  else if (97 <=? c) && (c <=? 122) then Some (c - 87)
  else if (65 <=? c) && (c <=? 90) then Some (c - 55)
  else None.

(** The longest prefix of radix-[R] digits, evaluated; [acc] is the value
    read so far, [None] while no digit was read. *)
Fixpoint digitsPrefix (R : N) (s : jsstring) (acc : option N) : option N :=
  match s with
  | [] => acc
  | c :: s' =>
      match digitVal c with
      | Some d =>
          if d <? R then digitsPrefix R s' (Some (R * default 0 acc + d))
          else acc
      | None => acc
      end
  end.

Fixpoint trimStart (s : jsstring) : jsstring :=
  match s with
  | c :: s' => if isWhiteSpace c then trimStart s' else s
  | [] => []
  end.

(** [parseInt(s)] with no radix argument: leading white space is skipped,
    a sign is read, a [0x]/[0X] prefix selects radix 16, otherwise radix
    10; the result is NaN when no digit follows, and otherwise the
    Number for the sign and the value of the digits. (The language lets
    an implementation zero the digits after the twentieth significant
    one before it rounds; the engines round the value itself, as
    here.) *)
Definition parseInt (s : jsstring) : number :=
  let S0 := trimStart s in
  let '(negative, S1) :=
    match S0 with
    | c :: t => if c =? 45 then (true, t)
                else if c =? 43 then (false, t) else (false, S0)
    | [] => (false, S0)
    end in
  let '(R, S2) :=
    match S1 with
    | c0 :: c1 :: t =>
        if (c0 =? 48) && ((c1 =? 120) || (c1 =? 88)) then (16, t)
        else (10, S1)
    | _ => (10, S1)
    end in
  match digitsPrefix R S2 None with
  | None => NaN
  | Some n => to_number negative n
  end.

(** Completions: a JavaScript evaluation ends normally with a value or
    abruptly with a thrown error. *)
Inductive js_error := TypeError.

Inductive completion (A : Type) : Type :=
| Normal (a : A)
| Throw (e : js_error).
Arguments Normal {A} a.
Arguments Throw {A} e.

Definition bind {A B} (c : completion A) (k : A -> completion B)
  : completion B :=
  match c with
  | Normal a => k a
  | Throw e => Throw e
  end.

End JS.

Notation "'let!' x ':=' c 'in' k" := (JS.bind c (fun x => k))
  (at level 10, x pattern, c at level 100, k at level 200).

(* ================================================================== *)
(** ** Regular expressions *)
(* ================================================================== *)

Module Regex.
Import JS.

(** Single-character atoms: [.], [\d] and a literal character. *)
Inductive cls := Dot | Digit | Chr (c : char).

Definition cls_match (a : cls) (c : char) : bool :=
  match a with
  | Dot => negb (isLineTerminator c)
  | Digit => isDigit c
  | Chr c' => c =? c'
  end.

(** The patterns of the checkers: assertions [^] and [$] (no [m] flag),
    atoms, sequence, alternation, capture groups, and the quantifiers
    [+] (greedy) and [+?] (lazy), which the sources only apply to
    single-character atoms. *)
Inductive regex :=
| Empty
| Bol
| Eol
| Atom (a : cls)
| Seq (r1 r2 : regex)
| Alt (r1 r2 : regex)
| Plus (greedy : bool) (a : cls)
| Group (n : nat) (r : regex).

(** The capture array: index [n] holds the text of group [n], or is
    undefined. *)
Definition captures := nat -> option jsstring.

Definition no_captures : captures := fun _ => None.

Definition upd (n : nat) (v : jsstring) (c : captures) : captures :=
  fun i => if Nat.eqb i n then Some v else c i.

(** Matcher state: the input still to read, the index reached, and the
    captures so far. *)
Record mstate := MState { rest : jsstring; idx : nat; caps : captures }.

(** A continuation matches the rest of the pattern. *)
Definition cont := mstate -> option captures.

(** [a+]: read as many as possible, give back one at a time. *)
Fixpoint rep_greedy (a : cls) (s : jsstring) (i : nat) (c : captures)
    (k : cont) : option captures :=
  match s with
  | ch :: s' =>
      if cls_match a ch then
        match rep_greedy a s' (S i) c k with
        | Some r => Some r
        | None => k (MState s' (S i) c)
        end
      else None
  | [] => None
  end.

(** [a+?]: read one, try the rest of the pattern, read one more on
    failure. *)
Fixpoint rep_lazy (a : cls) (s : jsstring) (i : nat) (c : captures)
    (k : cont) : option captures :=
  match s with
  | ch :: s' =>
      if cls_match a ch then
        match k (MState s' (S i) c) with
        | Some r => Some r
        | None => rep_lazy a s' (S i) c k
        end
      else None
  | [] => None
  end.

(** The backtracking matcher, in the continuation-passing form of the
    language definition: alternatives are tried left to right, and a
    failure of the continuation makes the last choice point try its next
    option. *)
Fixpoint m (r : regex) (x : mstate) (k : cont) : option captures :=
  match r with
  | Empty => k x
  | Bol => if Nat.eqb (idx x) 0 then k x else None
  | Eol => match rest x with [] => k x | _ :: _ => None end
  | Atom a =>
      match rest x with
      | ch :: s' =>
          if cls_match a ch then k (MState s' (S (idx x)) (caps x)) else None
      | [] => None
      end
  | Seq r1 r2 => m r1 x (fun y => m r2 y k)
  | Alt r1 r2 =>
      match m r1 x k with
      | Some c => Some c
      | None => m r2 x k
      end
  | Plus greedy a =>
      if greedy then rep_greedy a (rest x) (idx x) (caps x) k
      else rep_lazy a (rest x) (idx x) (caps x) k
  | Group n r =>
      m r x (fun y =>
        k (MState (rest y) (idx y)
             (upd n (firstn (idx y - idx x) (rest x)) (caps y))))
  end.

(** [RegExp.prototype.exec] without [g] or [y]: the pattern is tried at
    index 0, then 1, and so on up to the length of the input; the first
    success wins and fills capture 0 with the whole match. [None] is
    [null]. *)
Fixpoint exec_from (r : regex) (s : jsstring) (i : nat) : option captures :=
  match m r (MState s i no_captures)
          (fun y => Some (upd 0 (firstn (idx y - i) s) (caps y))) with
  | Some c => Some c
  | None =>
      match s with
      | [] => None
      | _ :: s' => exec_from r s' (S i)
      end
  end.

(** [s.match(r)] *)
Definition str_match (s : jsstring) (r : regex) : option captures :=
  exec_from r s 0%nat.

(** A literal piece of a pattern. *)
Definition lit (s : string) : regex :=
  fold_right (fun a r => Seq (Atom (Chr (N_of_ascii a))) r) Empty
    (list_ascii_of_string s).

(** What a pattern denotes, apart from the order in which the matcher
    explores it: [matches r x y] when [r] can take the matcher from
    state [x] to state [y]. *)
Inductive matches : regex -> mstate -> mstate -> Prop :=
| M_Empty x : matches Empty x x
| M_Bol x : idx x = 0%nat -> matches Bol x x
| M_Eol x : rest x = [] -> matches Eol x x
| M_Atom a x ch s' :
    rest x = ch :: s' -> cls_match a ch = true ->
    matches (Atom a) x (MState s' (S (idx x)) (caps x))
| M_Seq r1 r2 x y z :
    matches r1 x y -> matches r2 y z -> matches (Seq r1 r2) x z
| M_AltL r1 r2 x y : matches r1 x y -> matches (Alt r1 r2) x y
| M_AltR r1 r2 x y : matches r2 x y -> matches (Alt r1 r2) x y
| M_Plus g a x w s' :
    rest x = w ++ s' -> w <> [] -> forallb (cls_match a) w = true ->
    matches (Plus g a) x (MState s' (idx x + length w) (caps x))
| M_Group n r x y :
    matches r x y ->
    matches (Group n r) x
      (MState (rest y) (idx y)
         (upd n (firstn (idx y - idx x) (rest x)) (caps y))).

End Regex.

Infix "+>" := Regex.Seq (at level 62, right associativity).

(* ================================================================== *)
(** ** The Zig checker *)
(* ================================================================== *)

Module Zig.
Import JS Regex.

Inductive Severity := error | warning | info.

#[global] Instance Severity_eq_dec : EqDecision Severity.
Proof. solve_decision. Defined.

(** [DiagnosticResult], with the fields the checker fills. *)
Record DiagnosticResult := Diagnostic {
  line : number;
  column : number;
  severity : Severity;
  message : jsstring
}.

(** [/^.+?:(\d+):(\d+): (error|warning|note): (.+)$/] *)
Definition zig_regex : regex :=
  Bol +> Plus false Dot +> lit ":" +> Group 1 (Plus true Digit) +>
  lit ":" +> Group 2 (Plus true Digit) +> lit ": " +>
  Group 3 (Alt (lit "error") (Alt (lit "warning") (lit "note"))) +>
  lit ": " +> Group 4 (Plus true Dot) +> Eol.

(** [match[i]]: reading an index of [null] throws. *)
Definition prop (mt : option captures) (i : nat)
  : completion (option jsstring) :=
  match mt with
  | None => Throw TypeError
  | Some c => Normal (c i)
  end.

(** A string is truthy when it is not empty; [undefined] is falsy. *)
Definition truthy (v : option jsstring) : bool :=
  match v with
  | Some (_ :: _) => true
  | _ => false
  end.

(** [match && match[1] && match[2] && match[3] && match[4]]: [&&]
    evaluates its right operand only when the left one is truthy. The
    result is whether the whole condition is truthy. *)
Definition guard (mt : option captures) : completion bool :=
  match mt with
  | None => Normal false
  | Some _ =>
      let! g1 := prop mt 1 in
      if negb (truthy g1) then Normal false else
      let! g2 := prop mt 2 in
      if negb (truthy g2) then Normal false else
      let! g3 := prop mt 3 in
      if negb (truthy g3) then Normal false else
      let! g4 := prop mt 4 in
      Normal (truthy g4)
  end.

(** [parseInt(match[i])]: an undefined argument reads as the string
    "undefined", which is not a number. *)
Definition parseInt_val (v : option jsstring) : number :=
  match v with
  | Some s => parseInt s
  | None => NaN
  end.

(** The severity chosen for [severityStr]: [error] unless one of the two
    tests overrides it. *)
Definition severity_of (severityStr : option jsstring) : Severity :=
  let severity := error in
  let severity :=
    if bool_decide (severityStr = Some (js "warning")) then warning
    else severity in
  let severity :=
    if bool_decide (severityStr = Some (js "note")) then info
    else severity in
  severity.

(** One iteration of the loop over the lines: [diagnostics] is the array
    built so far. *)
Definition parse_line (diagnostics : list DiagnosticResult)
    (ln : jsstring) : completion (list DiagnosticResult) :=
  let mt := str_match ln zig_regex in
  let! ok := guard mt in
  if ok then
    let! severityStr := prop mt 3 in
    let severity := severity_of severityStr in
    let! m1 := prop mt 1 in
    let! m2 := prop mt 2 in
    let! m4 := prop mt 4 in
    Normal (diagnostics ++
              [Diagnostic (parseInt_val m1) (parseInt_val m2) severity
                 (default [] m4)])
  else Normal diagnostics.

(** The diagnostic that an iteration pushes for a line, if it pushes
    one. *)
Definition line_diagnostic (ln : jsstring) : option DiagnosticResult :=
  match str_match ln zig_regex with
  | Some c =>
      if truthy (c 1%nat) && truthy (c 2%nat) && truthy (c 3%nat)
         && truthy (c 4%nat)
      then Some (Diagnostic (parseInt_val (c 1%nat)) (parseInt_val (c 2%nat))
                   (severity_of (c 3%nat)) (default [] (c 4%nat)))
      else None
  | None => None
  end.

(** The loop [for (const line of lines)]: an iteration that throws ends
    the loop. *)
Fixpoint for_lines (lines : list jsstring)
    (diagnostics : list DiagnosticResult)
  : completion (list DiagnosticResult) :=
  match lines with
  | [] => Normal diagnostics
  | ln :: lines' =>
      let! diagnostics' := parse_line diagnostics ln in
      for_lines lines' diagnostics'
  end.

(** [zigConfig.parseOutput(_stdout, stderr, _file, _projectRoot)] *)
Definition parseOutput (_stdout stderr : jsstring)
    (_file _projectRoot : string) : completion (list DiagnosticResult) :=
  let diagnostics := [] in
  let lines := split_nl stderr in
  for_lines lines diagnostics.

(** The value of a decimal numeral. *)
Definition decimal (s : jsstring) : N :=
  fold_left (fun acc c => 10 * acc + (c - 48)) s 0.

Definition not_terminator (c : char) : bool := negb (isLineTerminator c).

(** The shape of the lines the pattern accepts:
    [path:line:column: (error|warning|note): message]. *)
Definition zig_shape (ln path g1 g2 g3 g4 : jsstring) : Prop :=
  ln = path ++ js ":" ++ g1 ++ js ":" ++ g2 ++ js ": " ++ g3 ++ js ": "
       ++ g4
  /\ path <> [] /\ forallb not_terminator path = true
  /\ g1 <> [] /\ forallb isDigit g1 = true
  /\ g2 <> [] /\ forallb isDigit g2 = true
  /\ (g3 = js "error" \/ g3 = js "warning" \/ g3 = js "note")
  /\ g4 <> [] /\ forallb not_terminator g4 = true.

(** The severity that a word of the tool stands for. *)
Inductive word_severity : jsstring -> Severity -> Prop :=
| ws_error : word_severity (js "error") error
| ws_warning : word_severity (js "warning") warning
| ws_note : word_severity (js "note") info.

(** The Number that [parseInt] gives for a numeral: the double nearest
    to its value. *)
Definition numeral (g : jsstring) : number := to_number false (decimal g).

(** [d] is the reading of the line [ln]. *)
Definition from_line (ln : jsstring) (d : DiagnosticResult) : Prop :=
  exists path g1 g2 g3 g4,
    zig_shape ln path g1 g2 g3 g4
    /\ line d = numeral g1
    /\ column d = numeral g2
    /\ word_severity g3 (severity d)
    /\ message d = g4.

(** [x >= 1], for a Number. *)
Definition at_least_one (x : number) : Prop :=
  match x with
  | Num z => (1 <= z)%Z
  | Infinity negative => negative = false
  | NaN | NegZero => False
  end.

(** Positions count from 1. *)
Definition one_indexed (d : DiagnosticResult) : Prop :=
  at_least_one (line d) /\ at_least_one (column d).

(** A Number that is neither NaN nor below zero. *)
Definition not_negative (x : number) : Prop :=
  match x with
  | Num z => (0 <= z)%Z
  | Infinity negative => negative = false
  | NaN | NegZero => False
  end.

(** A numeral with a digit other than 0. *)
Definition has_nonzero_digit (g : jsstring) : Prop :=
  exists c, In c g /\ c <> 48.

(** The pattern after its lazy prefix:
    [:(\d+):(\d+): (error|warning|note): (.+)$]. *)
Definition zig_tail : regex :=
  lit ":" +> Group 1 (Plus true Digit) +>
  lit ":" +> Group 2 (Plus true Digit) +> lit ": " +>
  Group 3 (Alt (lit "error") (Alt (lit "warning") (lit "note"))) +>
  lit ": " +> Group 4 (Plus true Dot) +> Eol.

(** The text of a line after its path. *)
Definition tail_of (g1 g2 g3 g4 : jsstring) : jsstring :=
  js ":" ++ g1 ++ js ":" ++ g2 ++ js ": " ++ g3 ++ js ": " ++ g4.

(** What the pattern asks of the four groups. *)
Definition tail_ok (g1 g2 g3 g4 : jsstring) : Prop :=
  g1 <> [] /\ forallb isDigit g1 = true
  /\ g2 <> [] /\ forallb isDigit g2 = true
  /\ (g3 = js "error" \/ g3 = js "warning" \/ g3 = js "note")
  /\ g4 <> [] /\ forallb not_terminator g4 = true.

(** The reading of a line with the shortest path. *)
Definition first_reading (ln path g1 g2 g3 g4 : jsstring) : Prop :=
  zig_shape ln path g1 g2 g3 g4
  /\ forall path' h1 h2 h3 h4,
       zig_shape ln path' h1 h2 h3 h4 ->
       (length path <= length path')%nat.

(** The lines of stderr that the pattern matches, in their order. *)
Definition matched_lines (stderr : jsstring) : list jsstring :=
  filter (fun ln => is_Some (str_match ln zig_regex)) (split_nl stderr).

(** [d] is what the first reading of the line [ln] gives. *)
Definition reads (ln : jsstring) (d : DiagnosticResult) : Prop :=
  exists path g1 g2 g3 g4,
    first_reading ln path g1 g2 g3 g4
    /\ line d = numeral g1
    /\ column d = numeral g2
    /\ word_severity g3 (severity d)
    /\ message d = g4.

(** No colon of the string has a digit right after it. *)
Fixpoint no_colon_digit (s : jsstring) : bool :=
  match s with
  | c :: (d :: _) as t =>
      negb ((c =? 58) && isDigit d) && no_colon_digit t
  | _ => true
  end.

(** The line feed, as a one-unit string. *)
Definition LF : jsstring := [0x0A].

(** [buildArgs]: [zig ast-check <file>] *)
Definition buildArgs (file _projectRoot _toolCommand : string)
  : list string :=
  ["ast-check"%string; file].

End Zig.

(* ================================================================== *)
(** ** The status display *)
(* ================================================================== *)

Module Status.
Import JS.
Local Open Scope string_scope.

Definition nl : string := String (ascii_of_nat 10) "".

(** The persisted configuration as [loadConfig] returns it: every flag
    may be absent ([None]) or hold a boolean. *)
Record Config := {
  disable : option bool;
  disableScala : option bool;
  disableTypeScript : option bool;
  disablePython : option bool;
  disableGo : option bool;
  disableRust : option bool;
  disableJava : option bool;
  disableCpp : option bool;
  disablePhp : option bool;
  disableLua : option bool;
  disableElixir : option bool;
  disableTerraform : option bool;
  disableZig : option bool
}.

(** [flag === true] *)
Definition is_true (flag : option bool) : bool :=
  bool_decide (flag = Some true).

(** [if (flag === true) disabledLanguages.add(name)] *)
Definition add_if (flag : option bool) (name : string)
    (disabledLanguages : gset string) : gset string :=
  if is_true flag then {[name]} ∪ disabledLanguages else disabledLanguages.

(** The [try] block that reads the configuration: when [loadConfig]
    throws, the [catch] leaves both variables as initialised. *)
Definition read_config (loadConfig : completion Config)
  : bool * gset string :=
  let disabledLanguages : gset string := ∅ in
  let globalDisabled := false in
  match loadConfig with
  | Throw _ => (globalDisabled, disabledLanguages)
  | Normal config =>
      let globalDisabled := is_true (disable config) in
      let disabledLanguages :=
        add_if (disableScala config) "Scala" disabledLanguages in
      let disabledLanguages :=
        add_if (disableTypeScript config) "TypeScript" disabledLanguages in
      let disabledLanguages :=
        add_if (disablePython config) "Python" disabledLanguages in
      let disabledLanguages :=
        add_if (disableGo config) "Go" disabledLanguages in
      let disabledLanguages :=
        add_if (disableRust config) "Rust" disabledLanguages in
      let disabledLanguages :=
        add_if (disableJava config) "Java" disabledLanguages in
      let disabledLanguages :=
        add_if (disableCpp config) "C/C++" disabledLanguages in
      let disabledLanguages :=
        add_if (disablePhp config) "PHP" disabledLanguages in
      let disabledLanguages :=
        add_if (disableLua config) "Lua" disabledLanguages in
      let disabledLanguages :=
        add_if (disableElixir config) "Elixir" disabledLanguages in
      let disabledLanguages :=
        add_if (disableTerraform config) "Terraform" disabledLanguages in
      let disabledLanguages :=
        add_if (disableZig config) "Zig" disabledLanguages in
      (globalDisabled, disabledLanguages)
  end.

(** [globalDisabled || disabledLanguages.has(name)] *)
Definition isDisabled (globalDisabled : bool)
    (disabledLanguages : gset string) (name : string) : bool :=
  globalDisabled || bool_decide (name ∈ disabledLanguages).

Record Lang := {
  name : string;
  code : string;
  command : string;
  versionArg : string;
  install : string
}.

Definition languages : list Lang := [
  {| name := "TypeScript"; code := "typescript"; command := "tsc";
     versionArg := "--version"; install := "npm install -g typescript" |};
  {| name := "Python"; code := "python"; command := "pyright";
     versionArg := "--version"; install := "npm install -g pyright" |};
  {| name := "Go"; code := "go"; command := "go";
     versionArg := "version";
     install := "Install Go from https://golang.org" |};
  {| name := "Rust"; code := "rust"; command := "rustc";
     versionArg := "--version";
     install := "Install Rust from https://rustup.rs" |};
  {| name := "Java"; code := "java"; command := "javac";
     versionArg := "-version"; install := "Install Java JDK" |};
  {| name := "C/C++"; code := "cpp"; command := "gcc";
     versionArg := "--version"; install := "Install GCC or Clang" |};
  {| name := "PHP"; code := "php"; command := "php";
     versionArg := "--version"; install := "Install PHP" |};
  {| name := "Scala"; code := "scala"; command := "scalac";
     versionArg := "-version"; install := "Install Scala" |};
  {| name := "Lua"; code := "lua"; command := "luac";
     versionArg := "-v"; install := "Install Lua" |};
  {| name := "Elixir"; code := "elixir"; command := "elixir";
     versionArg := "--version"; install := "Install Elixir" |};
  {| name := "Terraform"; code := "terraform"; command := "terraform";
     versionArg := "version"; install := "Install Terraform" |};
  {| name := "Zig"; code := "zig"; command := "zig";
     versionArg := "version";
     install := "Install Zig from https://ziglang.org" |}
].

(** What one probe resolves to. *)
Record Probe := {
  p_name : string;
  p_code : string;
  available : bool;
  p_install : string
}.

(** [Promise.all]: every promise, when it settles, stores its value at
    its own index of the result array; the array is handed over once no
    slot is left empty. [sched] is the order in which the promises
    settle. *)
Section PromiseAll.
Context {A : Type}.

Definition settle (values : list A) (slots : list (option A)) (i : nat)
  : list (option A) :=
  match values !! i with
  | Some v => <[i := Some v]> slots
  | None => slots
  end.

Definition promise_all (values : list A) (sched : list nat)
  : option (list A) :=
  let slots :=
    foldl (settle values) (replicate (length values) None) sched in
  mapM id slots.
End PromiseAll.

Section ShowStatus.
(** [execCommand] of [utils/common]: the exit code of the command, or a
    rejection. *)
Variable execCommand : list string -> completion Z.

(** The body of the [async] callback given to [languages.map]. *)
Definition check (lang : Lang) : Probe :=
  match execCommand [command lang; versionArg lang] with
  | Normal exitCode =>
      {| p_name := name lang; p_code := code lang;
         available := bool_decide (exitCode = 0%Z);
         p_install := install lang |}
  | Throw _ =>
      {| p_name := name lang; p_code := code lang;
         available := false;
         p_install := install lang |}
  end.

(** One line of the display loop. *)
Definition status_line (globalDisabled : bool)
    (disabledLanguages : gset string) (result : Probe) : string :=
  if isDisabled globalDisabled disabledLanguages (p_name result) then
    "  🚫 " ++ p_name result ++ " (" ++ p_code result
      ++ "): DISABLED via config"
  else if available result then
    "  ✅ " ++ p_name result ++ " (" ++ p_code result ++ "): Available"
  else
    "  ❌ " ++ p_name result ++ " (" ++ p_code result
      ++ "): Not found - " ++ p_install result.

(** The messages pushed before the probes. *)
Definition preamble (globalDisabled : bool) : list string :=
  let messages := [nl ++ "Current Status:" ++ nl] in
  if globalDisabled
  then (messages
        ++ ["  🚫 All language checking is DISABLED via config"])%list
  else messages.

(** [messages] at the end of [showStatus], for the order [sched] in
    which the probes complete; [None] while [Promise.all] has not
    resolved. *)
Definition status_messages (loadConfig : completion Config)
    (sched : list nat) : option (list string) :=
  let '(globalDisabled, disabledLanguages) := read_config loadConfig in
  let messages := preamble globalDisabled in
  let checks := map check languages in
  match promise_all checks sched with
  | None => None
  | Some results =>
      Some (foldl
              (fun messages result =>
                 (messages
                  ++ [status_line globalDisabled disabledLanguages result])
                 %list)
              messages results)
  end.

(** [showStatus]: the text logged and returned. *)
Definition showStatus (loadConfig : completion Config)
    (sched : list nat) : option string :=
  match status_messages loadConfig sched with
  | None => None
  | Some messages => Some (String.concat nl messages)
  end.
End ShowStatus.

(** The messages that [showStatus] builds when the probes are displayed
    in the order of the [languages] list. *)
Definition in_request_order (execCommand : list string -> completion Z)
    (loadConfig : completion Config) : list string :=
  (preamble (read_config loadConfig).1
   ++ map (fun lang =>
            status_line (read_config loadConfig).1
              (read_config loadConfig).2 (check execCommand lang))
       languages)%list.

(** The flag that the [try] block of [showStatus] reads before it adds
    the name [n] to [disabledLanguages]; no flag is read for any other
    name. *)
Definition flag_of (n : string) (config : Config) : option bool :=
  if bool_decide (n = "Scala") then disableScala config
  else if bool_decide (n = "TypeScript") then disableTypeScript config
  else if bool_decide (n = "Python") then disablePython config
  else if bool_decide (n = "Go") then disableGo config
  else if bool_decide (n = "Rust") then disableRust config
  else if bool_decide (n = "Java") then disableJava config
  else if bool_decide (n = "C/C++") then disableCpp config
  else if bool_decide (n = "PHP") then disablePhp config
  else if bool_decide (n = "Lua") then disableLua config
  else if bool_decide (n = "Elixir") then disableElixir config
  else if bool_decide (n = "Terraform") then disableTerraform config
  else if bool_decide (n = "Zig") then disableZig config
  else None.

(** The first message, and the one that follows it when everything is
    disabled. *)
Definition status_header : string := nl ++ "Current Status:" ++ nl.

Definition disabled_banner : string :=
  "  🚫 All language checking is DISABLED via config".

(** The configuration in which the flag read for the name [n] is [true]
    and every other flag, the global one included, is [false]. *)
Definition only_flag (n : string) : Config :=
  {| disable := Some false;
     disableScala := Some (bool_decide (n = "Scala"));
     disableTypeScript := Some (bool_decide (n = "TypeScript"));
     disablePython := Some (bool_decide (n = "Python"));
     disableGo := Some (bool_decide (n = "Go"));
     disableRust := Some (bool_decide (n = "Rust"));
     disableJava := Some (bool_decide (n = "Java"));
     disableCpp := Some (bool_decide (n = "C/C++"));
     disablePhp := Some (bool_decide (n = "PHP"));
     disableLua := Some (bool_decide (n = "Lua"));
     disableElixir := Some (bool_decide (n = "Elixir"));
     disableTerraform := Some (bool_decide (n = "Terraform"));
     disableZig := Some (bool_decide (n = "Zig")) |}.

(** The three lines that the display loop can push for a language. *)
Definition disabled_line (lang : Lang) : string :=
  "  🚫 " ++ name lang ++ " (" ++ code lang ++ "): DISABLED via config".

Definition available_line (lang : Lang) : string :=
  "  ✅ " ++ name lang ++ " (" ++ code lang ++ "): Available".

Definition not_found_line (lang : Lang) : string :=
  "  ❌ " ++ name lang ++ " (" ++ code lang ++ "): Not found - "
  ++ install lang.

(** Who receives a logged text: [console.log], or a function of the
    caller. *)
Inductive logger := console_log | caller_log (id : nat).

(** The [log] argument of [showHelp] and [showStatus]: left out, so that
    the default [console.log] applies; a falsy value such as [null]; or
    a function. *)
Inductive log_arg := Omitted | Falsy | Function (l : logger).

(** [if (log) log(text)]: the calls made, with their text. *)
Definition log_call (log : log_arg) (text : string)
  : list (logger * string) :=
  match log with
  | Omitted => [(console_log, text)]
  | Falsy => []
  | Function l => [(l, text)]
  end.

(** [helpText] *)
Definition helpText : string :=
  "Claude LSP CLI - File-based diagnostics for Claude Code" ++ nl
  ++ nl
  ++ "Usage: claude-lsp-cli <command> [args]" ++ nl
  ++ nl
  ++ "Commands:" ++ nl
  ++ "  hook <event>             Handle Claude Code hook events" ++ nl
  ++ "  check <file>             Check individual file for errors/warnings"
  ++ nl
  ++ "  disable <language>       Disable language checking globally (e.g. disable scala)"
  ++ nl
  ++ "  enable <language>        Enable language checking globally (e.g. enable scala)"
  ++ nl
  ++ "  help                     Show this help message" ++ nl.

Section ShowHelp.
Variable execCommand : list string -> completion Z.

(** [showStatus(log)] with its logging: the calls made to loggers, and
    the text returned. *)
Definition showStatus_log (loadConfig : completion Config)
    (sched : list nat) (log : log_arg)
  : option (list (logger * string) * string) :=
  match showStatus execCommand loadConfig sched with
  | None => None
  | Some fullMessage => Some (log_call log fullMessage, fullMessage)
  end.

(** [showHelp(log)]: [showStatus] is called without an argument. *)
Definition showHelp (loadConfig : completion Config) (sched : list nat)
    (log : log_arg) : option (list (logger * string) * string) :=
  match showStatus_log loadConfig sched Omitted with
  | None => None
  | Some (logged, status) =>
      let fullMessage := helpText ++ status in
      Some ((logged ++ log_call log fullMessage)%list, fullMessage)
  end.
End ShowHelp.

End Status.

(* ================================================================== *)
(** ** The dispatch core *)
(* ================================================================== *)

Module Core.
Import JS Zig.
Local Open Scope string_scope.

(** Modelled from the spec: the taxonomy of section 7, whose member the
    engine hands to the formatter with every result; [tool_ran] is the
    normal outcome, with findings or without. *)
Inductive Condition :=
| unsupported_extension
| checking_disabled
| tool_not_found
| tool_timeout
| parser_defect
| tool_ran.

(** Modelled from the spec: [CheckResult] of the data model (section
    3), whose declaration is not in the tree, with the member of the
    taxonomy of section 7 that the result stands for. *)
Record CheckResult := {
  file : string;
  language : option string;
  diagnostics : list DiagnosticResult;
  toolAvailable : bool;
  condition : Condition
}.

(** What a command leaves behind: the lines written to standard output
    and to standard error, and the exit code. *)
Record Output := {
  stdout : list string;
  stderr : list string;
  exitCode : Z
}.

Definition silent : Output :=
  {| stdout := []; stderr := []; exitCode := 0 |}.

Inductive Mode := Plain | Hook.

(** Modelled from the spec: the severity aggregation of the Output
    Formatter (section 4.4), whose source is not in the tree. One pass
    over the diagnostics counts the errors and the warnings; [info] adds
    to neither. *)
Definition tally (ds : list DiagnosticResult) : nat * nat :=
  foldl (fun acc d =>
           match severity d with
           | error => (S acc.1, acc.2)
           | warning => (acc.1, S acc.2)
           | info => acc
           end) (0, 0)%nat ds.

(** Modelled from the spec: the exit code of the Output Formatter
    (section 4.4): 0 with zero errors and zero warnings, 2 otherwise, in
    either mode. *)
Definition exit_code (ds : list DiagnosticResult) : Z :=
  let '(errors, warnings) := tally ds in
  if bool_decide (errors = 0 ∧ warnings = 0)%nat then 0%Z else 2%Z.

(** The number of diagnostics of one severity. *)
Definition count_severity (sev : Severity) (ds : list DiagnosticResult)
  : nat :=
  length (filter (fun d => severity d = sev) ds).

(** A diagnostic that calls for attention: an error or a warning. *)
Definition is_issue (d : DiagnosticResult) : Prop :=
  severity d = error \/ severity d = warning.

(** The marker that the tests look for in front of the counts. *)
Definition failure_marker : string := "✗ ".

Definition no_issues : string := "No issues found".

(** Modelled from the spec: the counts of the summary line of section
    4.4, "N error(s), M warning(s)". *)
Definition counts (errors warnings : nat) : string :=
  pretty errors ++ " error(s), " ++ pretty warnings ++ " warning(s)".

(** Modelled from the spec: the first line of the report (section 4.4):
    the "No issues found" line for an empty diagnostic list, otherwise
    the summary line with the counts, prefixed by the failure marker
    when the count of errors and warnings is above zero. *)
Definition headline (ds : list DiagnosticResult) : string :=
  match ds with
  | [] => no_issues
  | _ :: _ =>
      let '(errors, warnings) := tally ds in
      (if (0 <? errors + warnings)%nat then failure_marker else "")
      ++ counts errors warnings
  end.

(** Modelled from the spec: the editor-recognized escape sequence of
    section 4.4. The tests of the hook command look for its opening,
    [ESC ] 633 ; E ;]; the bell closes an operating-system command of
    this kind. *)
Definition osc_open : string := String (ascii_of_nat 27) "]633;E;".
Definition osc_close : string := String (ascii_of_nat 7) "".

(** Modelled from the spec: the informational text for an outcome that
    is neither a run of the tool nor silent (sections 4.2 and 7):
    "X not installed" is the wording of section 7; the other two
    wordings are not specified and only have to differ. *)
Definition notice (res : CheckResult) : list string :=
  let who := default "" (language res) in
  match condition res with
  | tool_not_found => [who ++ " not installed"]
  | tool_timeout => [who ++ " timed out"]
  | parser_defect => [who ++ " could not be checked"]
  | unsupported_extension | checking_disabled | tool_ran => []
  end.

Section Formatter.
(** The rendering of one diagnostic in the detailed part of the report,
    which the specification leaves to the implementation. *)
Variable detail : DiagnosticResult -> string.

(** Modelled from the spec: the information reported for a result
    (section 4.4): the first line, then every diagnostic in detail, in
    the order of the parser. *)
Definition report (ds : list DiagnosticResult) : list string :=
  headline ds :: map detail ds.

(** Modelled from the spec: what plain mode prints (sections 4.4 and
    7): the report when there are diagnostics; without any, the
    "No issues found" line when the tool was available and ran, nothing
    for an unsupported extension or a disabled check, and the notice of
    the outcome otherwise, so that a missing tool or a timeout is never
    shown as a clean run. *)
Definition plain_lines (res : CheckResult) : list string :=
  match diagnostics res with
  | _ :: _ => report (diagnostics res)
  | [] =>
      match condition res with
      | tool_ran => if toolAvailable res then [no_issues] else []
      | _ => notice res
      end
  end.

(** Modelled from the spec: what hook mode writes to standard error
    (section 4.4): the information of plain mode, wrapped in the escape
    sequence; nothing when plain mode has nothing to say, and nothing
    for a clean run, as the tests of the hook command require for a
    clean file. *)
Definition hook_lines (res : CheckResult) : list string :=
  match diagnostics res, condition res with
  | [], tool_ran => []
  | _, _ =>
      match plain_lines res with
      | [] => []
      | _ :: _ =>
          [osc_open ++ String.concat Status.nl (plain_lines res)
             ++ osc_close]
      end
  end.

(** Modelled from the spec: the Output Formatter (section 4.4), whose
    source is not in the tree. Plain mode prints on standard output,
    hook mode writes to standard error; the exit code is the same in
    both and depends on the diagnostics only. *)
Definition format (mode : Mode) (res : CheckResult) : Output :=
  let ds := diagnostics res in
  match mode with
  | Plain =>
      {| stdout := plain_lines res; stderr := [];
         exitCode := exit_code ds |}
  | Hook =>
      {| stdout := []; stderr := hook_lines res;
         exitCode := exit_code ds |}
  end.
End Formatter.

(** Modelled from the spec: [LanguageConfig] (section 3), whose
    declaration is not in the tree, with the members that [zigConfig]
    defines and the engine reads. *)
Record LanguageConfig := {
  lc_name : string;
  lc_tool : string;
  lc_extensions : list string;
  lc_localPaths : list string;
  lc_buildArgs : string -> string -> string -> list string;
  lc_parseOutput :
    jsstring -> jsstring -> string -> string ->
    completion (list DiagnosticResult)
}.

(** [zigConfig] *)
Definition zigConfig : LanguageConfig := {|
  lc_name := "Zig";
  lc_tool := "zig";
  lc_extensions := [".zig"];
  lc_localPaths := [];
  lc_buildArgs := Zig.buildArgs;
  lc_parseOutput := Zig.parseOutput
|}.

(** Modelled from the spec: the outcomes of the Process Runner (section
    4.2): the tool ran, the deadline passed, or there is no such
    executable. *)
Inductive RunResult :=
| Exited (out err : jsstring) (code : Z)
| TimedOut (out err : jsstring)
| ToolNotFound.

(** The observable history of one invocation of the command line: the
    files handed to the Check Engine and the processes spawned by the
    Process Runner, oldest first. *)
Record World := {
  engine_calls : list string;
  spawned : list (list string)
}.

Section Engine.
Variable detail : DiagnosticResult -> string.
(** The Language Registry: the configuration that owns the suffix of a
    path. *)
Variable resolve : string -> option LanguageConfig.
(** Tool discovery: the project-local or system-wide path of the tool
    of a configuration, for a project root. *)
Variable find_tool : LanguageConfig -> string -> option string.
(** What the external tool does for an argument vector and a working
    directory. *)
Variable run_tool : list string -> string -> RunResult.
(** The persisted configuration, read at every invocation. *)
Variable loadConfig : completion Status.Config.

(** Modelled from the spec: the Process Runner (section 4.2): the only
    place that spawns a process. *)
Definition run_process (argv : list string) (cwd : string) (w : World)
  : RunResult * World :=
  (run_tool argv cwd,
   {| engine_calls := engine_calls w; spawned := spawned w ++ [argv] |}).

Definition empty_result (f : string) (lang : option string)
    (avail : bool) (c : Condition) : CheckResult :=
  {| file := f; language := lang; diagnostics := [];
     toolAvailable := avail; condition := c |}.

(** Modelled from the spec: the Check Engine (section 4.3, steps 1 to
    6), whose source is not in the tree. The enable/disable policy is
    the one [showStatus] displays: the global flag, or the flag of the
    language. *)
Definition check_engine (f projectRoot : string) (w : World)
  : CheckResult * World :=
  let w := {| engine_calls := engine_calls w ++ [f];
              spawned := spawned w |} in
  match resolve f with
  | None => (empty_result f None false unsupported_extension, w)
  | Some config =>
      let lang := Some (lc_name config) in
      let '(globalDisabled, disabledLanguages) :=
        Status.read_config loadConfig in
      if Status.isDisabled globalDisabled disabledLanguages
           (lc_name config)
      then (empty_result f lang false checking_disabled, w)
      else
        match find_tool config projectRoot with
        | None => (empty_result f lang false tool_not_found, w)
        | Some toolPath =>
            let argv :=
              toolPath :: lc_buildArgs config f projectRoot toolPath in
            let '(r, w) := run_process argv projectRoot w in
            match r with
            | Exited out err _ =>
                match lc_parseOutput config out err f projectRoot with
                | Normal ds =>
                    ({| file := f; language := lang;
                        diagnostics := ds; toolAvailable := true;
                        condition := tool_ran |}, w)
                | Throw _ => (empty_result f lang false parser_defect, w)
                end
            | TimedOut _ _ => (empty_result f lang true tool_timeout, w)
            | ToolNotFound => (empty_result f lang false tool_not_found, w)
            end
        end
  end.


(** Modelled from the spec: [HookEvent] of the data model (section 3),
    whose declaration is not in the tree. *)
Record HookEvent := {
  tool_name : string;
  file_path : string;
  cwd : string
}.

(** The reading of the payload: [None] for a missing or malformed one,
    or one that lacks a required field. *)
Variable parse_payload : string -> option HookEvent.
(** The tool names that create or edit a file. *)
Variable triggers : string -> bool.

(** Modelled from the spec: the Hook Handler (section 4.5, steps 1 to
    4), whose source is not in the tree. *)
Definition hook_handler (stdin : string) (w : World) : Output * World :=
  match parse_payload stdin with
  | None => (silent, w)
  | Some ev =>
      if triggers (tool_name ev) then
        let '(res, w) := check_engine (file_path ev) (cwd ev) w in
        (format detail Hook res, w)
      else (silent, w)
  end.
End Engine.

End Core.

(* ================================================================== *)
(** ** Facts about the matcher *)
(* ================================================================== *)

Module RegexFacts.
Import JS Regex.

Lemma rep_greedy_sound a s i c k r :
  rep_greedy a s i c k = Some r ->
  exists w s', s = w ++ s' /\ w <> [] /\ forallb (cls_match a) w = true
               /\ k (MState s' (i + length w) c) = Some r.
Proof.
  revert i. induction s as [|ch s IH]; intros i H; simpl in H; [discriminate|].
  destruct (cls_match a ch) eqn:Hc; [|discriminate].
  destruct (rep_greedy a s (S i) c k) eqn:Hg.
  - injection H as <-. destruct (IH _ Hg) as (w & s' & -> & Hw & Hall & Hk).
    exists (ch :: w), s'. simpl. rewrite Hc, Hall.
    repeat split; try done. rewrite <- Hk. f_equal. f_equal. lia.
  - exists [ch], s. simpl. rewrite Hc. repeat split; try done.
    rewrite <- H. f_equal. f_equal. lia.
Qed.

Lemma rep_greedy_complete a s i c k :
  rep_greedy a s i c k = None ->
  forall w s', s = w ++ s' -> w <> [] -> forallb (cls_match a) w = true ->
               k (MState s' (i + length w) c) = None.
Proof.
  revert i. induction s as [|ch s IH]; intros i H w s' Hs Hw Hall.
  - destruct w; [done | discriminate].
  - destruct w as [|ch' w]; [done|]. simpl in Hs. injection Hs as <- ->.
    simpl in Hall. apply andb_true_iff in Hall as [Hc Hall].
    simpl in H. rewrite Hc in H.
    destruct (rep_greedy a (w ++ s') (S i) c k) eqn:Hg; [discriminate|].
    destruct w as [|ch2 w].
    + simpl in *. rewrite <- H. f_equal. f_equal. lia.
    + replace (i + length (ch :: ch2 :: w))%nat
        with (S i + length (ch2 :: w))%nat by (simpl; lia).
      eapply IH; eauto; done.
Qed.

Lemma rep_lazy_sound a s i c k r :
  rep_lazy a s i c k = Some r ->
  exists w s', s = w ++ s' /\ w <> [] /\ forallb (cls_match a) w = true
               /\ k (MState s' (i + length w) c) = Some r.
Proof.
  revert i. induction s as [|ch s IH]; intros i H; simpl in H; [discriminate|].
  destruct (cls_match a ch) eqn:Hc; [|discriminate].
  destruct (k (MState s (S i) c)) eqn:Hk.
  - injection H as <-. exists [ch], s. simpl. rewrite Hc.
    repeat split; try done. rewrite <- Hk. f_equal. f_equal. lia.
  - destruct (IH _ H) as (w & s' & -> & Hw & Hall & Hk').
    exists (ch :: w), s'. simpl. rewrite Hc, Hall.
    repeat split; try done. rewrite <- Hk'. f_equal. f_equal. lia.
Qed.

Lemma rep_lazy_complete a s i c k :
  rep_lazy a s i c k = None ->
  forall w s', s = w ++ s' -> w <> [] -> forallb (cls_match a) w = true ->
               k (MState s' (i + length w) c) = None.
Proof.
  revert i. induction s as [|ch s IH]; intros i H w s' Hs Hw Hall.
  - destruct w; [done | discriminate].
  - destruct w as [|ch' w]; [done|]. simpl in Hs. injection Hs as <- ->.
    simpl in Hall. apply andb_true_iff in Hall as [Hc Hall].
    simpl in H. rewrite Hc in H.
    destruct (k (MState (w ++ s') (S i) c)) eqn:Hk; [discriminate|].
    destruct w as [|ch2 w].
    + simpl in *. rewrite <- Hk. f_equal. f_equal. lia.
    + replace (i + length (ch :: ch2 :: w))%nat
        with (S i + length (ch2 :: w))%nat by (simpl; lia).
      eapply IH; eauto; done.
Qed.

(** The matcher only succeeds along the denotation of the pattern. *)
Lemma m_sound r : forall x k c,
  m r x k = Some c -> exists y, matches r x y /\ k y = Some c.
Proof.
  induction r as [| | |a|r1 IH1 r2 IH2|r1 IH1 r2 IH2|g a|n r IH];
    intros x k c H; simpl in H.
  - exists x. split; [constructor | done].
  - destruct (Nat.eqb_spec (idx x) 0); [|discriminate].
    exists x. split; [by constructor | done].
  - destruct (rest x) eqn:Hr; [|discriminate].
    exists x. split; [by constructor | done].
  - destruct (rest x) as [|ch s'] eqn:Hr; [discriminate|].
    destruct (cls_match a ch) eqn:Hc; [|discriminate].
    eexists. split; [by eapply M_Atom | done].
  - apply IH1 in H as (y & Hy & H). apply IH2 in H as (z & Hz & H).
    exists z. split; [by econstructor | done].
  - destruct (m r1 x k) eqn:H1.
    + injection H as ->. apply IH1 in H1 as (y & Hy & H).
      exists y. split; [by apply M_AltL | done].
    + apply IH2 in H as (y & Hy & H).
      exists y. split; [by apply M_AltR | done].
  - destruct g.
    + apply rep_greedy_sound in H as (w & s' & Hs & Hw & Hall & Hk).
      eexists. split; [by eapply M_Plus | done].
    + apply rep_lazy_sound in H as (w & s' & Hs & Hw & Hall & Hk).
      eexists. split; [by eapply M_Plus | done].
  - apply IH in H as (y & Hy & H).
    eexists. split; [by apply M_Group | done].
Qed.

(** The matcher fails only when the continuation rejects every state
    that the pattern can reach. *)
Lemma m_complete r : forall x k,
  m r x k = None -> forall y, matches r x y -> k y = None.
Proof.
  induction r as [| | |a|r1 IH1 r2 IH2|r1 IH1 r2 IH2|g a|n r IH];
    intros x k H y Hy; simpl in H; inversion Hy; subst; clear Hy.
  - done.
  - match goal with E : idx _ = 0%nat |- _ => rewrite E in H end. done.
  - match goal with E : rest _ = [] |- _ => rewrite E in H end. done.
  - match goal with E : rest _ = _ :: _ |- _ => rewrite E in H end.
    match goal with E : cls_match _ _ = true |- _ => rewrite E in H end.
    done.
  - eapply IH2; [|eassumption]. eapply (IH1 _ _ H). eassumption.
  - destruct (m r1 x k) eqn:H1; [discriminate|]. eapply IH1; eauto.
  - destruct (m r1 x k) eqn:H1; [discriminate|]. eapply IH2; eauto.
  - destruct g.
    + eapply rep_greedy_complete in H; eauto.
    + eapply rep_lazy_complete in H; eauto.
  - match goal with Hm : matches r _ _ |- _ => apply (IH _ _ H) in Hm end.
    done.
Qed.

(** A pattern consumes a prefix of the input and advances the index by
    its length. *)
Lemma matches_consumed r x y :
  matches r x y ->
  exists w, rest x = w ++ rest y /\ idx y = (idx x + length w)%nat.
Proof.
  induction 1; simpl.
  - exists []. split; [done | simpl; lia].
  - exists []. split; [done | simpl; lia].
  - exists []. split; [done | simpl; lia].
  - exists [ch]. split; [done | simpl; lia].
  - destruct IHmatches1 as (w1 & E1 & I1), IHmatches2 as (w2 & E2 & I2).
    exists (w1 ++ w2). rewrite E1, E2, I2, I1, length_app, <- app_assoc.
    split; [done | lia].
  - done.
  - done.
  - exists w. done.
  - done.
Qed.

End RegexFacts.

(* ================================================================== *)
(** ** Facts about the Zig checker *)
(* ================================================================== *)

Module ZigFacts.
Import JS Regex RegexFacts Zig.

(** *** Inversion and introduction of the pieces of the pattern *)

Lemma seq_inv r1 r2 x z :
  matches (r1 +> r2) x z -> exists y, matches r1 x y /\ matches r2 y z.
Proof. inversion 1; subst; eauto. Qed.

Lemma lit_inv s : forall x y,
  matches (lit s) x y ->
  rest x = js s ++ rest y /\ idx y = (idx x + length (js s))%nat
  /\ caps y = caps x.
Proof.
  induction s as [|a s IH]; intros x y H.
  - inversion H; subst. change (js "") with (@nil char). simpl.
    split; [done | split; [lia | done]].
  - change (lit (String a s))
      with (Atom (Chr (N_of_ascii a)) +> lit s) in H.
    apply seq_inv in H as (x1 & Ha & Hs).
    inversion Ha as [| | |? ? ch s' Hr Hc| | | | |]; subst.
    apply IH in Hs as (Hr' & Hi & Hcaps). cbn [rest idx caps] in *.
    apply N.eqb_eq in Hc as ->.
    change (js (String a s)) with (N_of_ascii a :: js s).
    rewrite Hr, Hr', Hi. cbn [length app].
    split; [done | split; [lia | done]].
Qed.

Lemma lit_intro s : forall t i c,
  matches (lit s) (MState (js s ++ t) i c)
    (MState t (i + length (js s)) c).
Proof.
  induction s as [|a s IH]; intros t i c.
  - change (js "") with (@nil char). simpl.
    replace (i + 0)%nat with i by lia. constructor.
  - change (lit (String a s)) with (Atom (Chr (N_of_ascii a)) +> lit s).
    change (js (String a s)) with (N_of_ascii a :: js s).
    eapply M_Seq.
    + eapply M_Atom; [reflexivity | simpl; apply N.eqb_refl].
    + cbn [length rest idx caps].
      replace (i + S (length (js s)))%nat
        with (S i + length (js s))%nat by lia.
      apply IH.
Qed.

Lemma plus_inv g a x y :
  matches (Plus g a) x y ->
  exists w, rest x = w ++ rest y /\ w <> []
            /\ forallb (cls_match a) w = true
            /\ idx y = (idx x + length w)%nat /\ caps y = caps x.
Proof. inversion 1; subst; simpl; eauto 10. Qed.

Lemma group_inv n r x y :
  matches (Group n r) x y ->
  exists y0 w, matches r x y0 /\ rest x = w ++ rest y0
               /\ idx y0 = (idx x + length w)%nat
               /\ y = MState (rest y0) (idx y0) (upd n w (caps y0)).
Proof.
  inversion 1 as [| | | | | | | |? ? ? y0 Hm]; subst.
  destruct (matches_consumed _ _ _ Hm) as (w & Hr & Hi).
  exists y0, w. repeat split; try done.
  rewrite Hi, Hr. replace (idx x + length w - idx x)%nat
    with (length w) by lia.
  by rewrite take_app_length.
Qed.

Lemma group_intro n r w s' i c c' :
  matches r (MState (w ++ s') i c) (MState s' (i + length w) c') ->
  matches (Group n r) (MState (w ++ s') i c)
    (MState s' (i + length w) (upd n w c')).
Proof.
  intros H. apply (M_Group n) in H. simpl in H.
  replace (i + length w - i)%nat with (length w) in H by lia.
  by rewrite take_app_length in H.
Qed.

Lemma plus_intro g a w s' i c :
  w <> [] -> forallb (cls_match a) w = true ->
  matches (Plus g a) (MState (w ++ s') i c) (MState s' (i + length w) c).
Proof. intros. by apply (M_Plus g a (MState (w ++ s') i c) w s'). Qed.

(** *** The pattern and the shape of a line *)

(** The three words of the severity group. *)
Lemma severity_group_inv x y :
  matches (Alt (lit "error") (Alt (lit "warning") (lit "note"))) x y ->
  exists g3, (g3 = js "error" \/ g3 = js "warning" \/ g3 = js "note")
             /\ rest x = g3 ++ rest y /\ caps y = caps x.
Proof.
  intros H. inversion H as [| | | | |? ? ? ? H1|? ? ? ? H1| |]; subst.
  - apply lit_inv in H1 as (? & ? & ?). exists (js "error"). eauto.
  - inversion H1 as [| | | | |? ? ? ? H2|? ? ? ? H2| |]; subst.
    + apply lit_inv in H2 as (? & ? & ?). exists (js "warning"). eauto 6.
    + apply lit_inv in H2 as (? & ? & ?). exists (js "note"). eauto 6.
Qed.

Lemma severity_group_intro g3 t i c :
  g3 = js "error" \/ g3 = js "warning" \/ g3 = js "note" ->
  matches (Alt (lit "error") (Alt (lit "warning") (lit "note")))
    (MState (g3 ++ t) i c) (MState t (i + length g3) c).
Proof.
  intros [-> | [-> | ->]].
  - apply M_AltL, lit_intro.
  - apply M_AltR, M_AltL, lit_intro.
  - apply M_AltR, M_AltR, lit_intro.
Qed.

(** Whatever the pattern matches has the shape of a Zig message, and the
    groups hold its pieces. *)
Lemma zig_regex_inv x y :
  matches zig_regex x y ->
  idx x = 0%nat /\
  exists path g1 g2 g3 g4,
    zig_shape (rest x) path g1 g2 g3 g4
    /\ caps y = upd 4 g4 (upd 3 g3 (upd 2 g2 (upd 1 g1 (caps x)))).
Proof.
  unfold zig_regex. intros H.
  apply seq_inv in H as (x0 & H0 & H). inversion H0 as [|? Hi| | | | | | |].
  subst. split; [done|].
  apply seq_inv in H as (x1 & H1 & H).
  apply plus_inv in H1 as (path & Ep & Hp & Hpa & _ & Cp).
  apply seq_inv in H as (x2 & H2 & H). apply lit_inv in H2 as (E2 & _ & C2).
  apply seq_inv in H as (x3 & H3 & H).
  apply group_inv in H3 as (y3 & g1 & H3 & E3 & _ & ->).
  apply plus_inv in H3 as (g1' & E3' & Hg1 & Hg1a & _ & C3).
  assert (g1' = g1) as -> by (rewrite E3 in E3'; by apply app_inv_tail in E3').
  simpl in H.
  apply seq_inv in H as (x4 & H4 & H). apply lit_inv in H4 as (E4 & _ & C4).
  apply seq_inv in H as (x5 & H5 & H).
  apply group_inv in H5 as (y5 & g2 & H5 & E5 & _ & ->).
  apply plus_inv in H5 as (g2' & E5' & Hg2 & Hg2a & _ & C5).
  assert (g2' = g2) as -> by (rewrite E5 in E5'; by apply app_inv_tail in E5').
  simpl in H.
  apply seq_inv in H as (x6 & H6 & H). apply lit_inv in H6 as (E6 & _ & C6).
  apply seq_inv in H as (x7 & H7 & H).
  apply group_inv in H7 as (y7 & g3 & H7 & E7 & _ & ->).
  apply severity_group_inv in H7 as (g3' & Hg3 & E7' & C7).
  assert (g3' = g3) as -> by (rewrite E7 in E7'; by apply app_inv_tail in E7').
  simpl in H.
  apply seq_inv in H as (x8 & H8 & H). apply lit_inv in H8 as (E8 & _ & C8).
  apply seq_inv in H as (x9 & H9 & H).
  apply group_inv in H9 as (y9 & g4 & H9 & E9 & _ & ->).
  apply plus_inv in H9 as (g4' & E9' & Hg4 & Hg4a & _ & C9).
  assert (g4' = g4) as -> by (rewrite E9 in E9'; by apply app_inv_tail in E9').
  inversion H as [| |? Hend| | | | | |]; subst. simpl in *.
  exists path, g1, g2, g3, g4. split.
  - unfold zig_shape. rewrite Ep, E2, E3, E4, E5, E6, E7, E8, E9, Hend.
    rewrite app_nil_r. repeat split; done.
  - rewrite C9, C8, C7, C6, C5, C4, C3, C2, Cp. done.
Qed.

(** Every line of that shape is matched. *)
Lemma zig_regex_intro ln path g1 g2 g3 g4 c :
  zig_shape ln path g1 g2 g3 g4 ->
  exists y, matches zig_regex (MState ln 0 c) y.
Proof.
  intros (-> & Hp & Hpa & Hg1 & Hg1a & Hg2 & Hg2a & Hg3 & Hg4 & Hg4a).
  unfold zig_regex. eexists.
  eapply M_Seq; [by apply M_Bol|].
  eapply M_Seq; [by apply plus_intro|].
  eapply M_Seq; [apply lit_intro|].
  eapply M_Seq; [by apply group_intro, plus_intro|].
  eapply M_Seq; [apply lit_intro|].
  eapply M_Seq; [by apply group_intro, plus_intro|].
  eapply M_Seq; [apply lit_intro|].
  eapply M_Seq; [by apply group_intro, severity_group_intro|].
  eapply M_Seq; [apply lit_intro|].
  eapply M_Seq.
  - rewrite <- (app_nil_r g4) at 1. by apply group_intro, plus_intro.
  - by apply M_Eol.
Qed.

(** *** [match] on a line *)

Lemma exec_from_sound r s : forall i c,
  exec_from r s i = Some c ->
  exists j y,
    matches r (MState (drop j s) (i + j) no_captures) y
    /\ c = upd 0 (take (idx y - (i + j)) (drop j s)) (caps y).
Proof.
  induction s as [|ch s IH]; intros i c H; simpl in H.
  - destruct (m r _ _) eqn:Hm; [|discriminate]. injection H as ->.
    apply m_sound in Hm as (y & Hy & [= <-]).
    exists 0%nat, y. rewrite Nat.add_0_r. done.
  - destruct (m r _ _) eqn:Hm.
    + injection H as ->. apply m_sound in Hm as (y & Hy & [= <-]).
      exists 0%nat, y. rewrite Nat.add_0_r. done.
    + apply IH in H as (j & y & Hy & ->).
      exists (S j), y. replace (i + S j)%nat with (S i + j)%nat by lia.
      done.
Qed.

Lemma exec_from_complete r s i y :
  matches r (MState s i no_captures) y -> is_Some (exec_from r s i).
Proof.
  intros Hy.
  assert (exists c, m r (MState s i no_captures)
            (fun y => Some (upd 0 (take (idx y - i) s) (caps y))) = Some c)
    as [c Hc].
  { destruct (m r _ _) eqn:Hm; [eauto|].
    by apply (m_complete _ _ _ Hm) in Hy. }
  destruct s; simpl; rewrite Hc; eauto.
Qed.

(** [match] succeeds exactly on the lines of the shape, and then the
    groups 1 to 4 hold the pieces of one reading of the line. *)
Lemma zig_match_sound ln c :
  str_match ln zig_regex = Some c ->
  exists path g1 g2 g3 g4,
    zig_shape ln path g1 g2 g3 g4
    /\ c 1%nat = Some g1 /\ c 2%nat = Some g2
    /\ c 3%nat = Some g3 /\ c 4%nat = Some g4.
Proof.
  intros H. apply exec_from_sound in H as (j & y & Hy & ->).
  apply zig_regex_inv in Hy as (Hi & path & g1 & g2 & g3 & g4 & Hs & ->).
  simpl in Hi. assert (j = 0)%nat as -> by lia. rewrite drop_0 in *.
  by exists path, g1, g2, g3, g4.
Qed.

Lemma zig_match_complete ln path g1 g2 g3 g4 :
  zig_shape ln path g1 g2 g3 g4 -> is_Some (str_match ln zig_regex).
Proof.
  intros H. destruct (zig_regex_intro _ _ _ _ _ _ no_captures H) as [y Hy].
  by eapply exec_from_complete.
Qed.

(** *** [parseInt] on a numeral *)

Lemma digit_range c : isDigit c = true <-> 48 <= c <= 57.
Proof.
  unfold isDigit. rewrite andb_true_iff, !N.leb_le. done.
Qed.

Lemma digitVal_digit c : isDigit c = true -> digitVal c = Some (c - 48).
Proof. unfold digitVal, isDigit. by intros ->. Qed.

Lemma digit_not_space c : isDigit c = true -> isWhiteSpace c = false.
Proof.
  intros H%digit_range. unfold isWhiteSpace, isLineTerminator.
  repeat match goal with
         | |- (_ || _)%bool = false => apply orb_false_intro
         | |- (_ && _)%bool = false => apply andb_false_iff; left
         | |- (_ =? _) = false => apply N.eqb_neq; lia
         | |- (_ <=? _) = false => apply N.leb_gt; lia
         end.
Qed.

Lemma digitsPrefix_digits s : forall acc,
  forallb isDigit s = true ->
  digitsPrefix 10 s acc
  = match s with
    | [] => acc
    | _ :: _ =>
        Some (fold_left (fun a c => 10 * a + (c - 48)) s (default 0 acc))
    end.
Proof.
  induction s as [|c s IH]; intros acc H; [done|].
  simpl in H. apply andb_true_iff in H as [Hc Hs].
  cbn [digitsPrefix]. rewrite (digitVal_digit _ Hc).
  apply digit_range in Hc.
  replace (c - 48 <? 10) with true by (symmetry; apply N.ltb_lt; lia).
  rewrite (IH _ Hs). destruct s; done.
Qed.

(** On a numeral, [parseInt] is the Number nearest to its decimal
    value. *)
Lemma parseInt_digits s :
  s <> [] -> forallb isDigit s = true -> parseInt s = numeral s.
Proof.
  intros Hne H. destruct s as [|c s]; [done|].
  pose proof H as H'. simpl in H'. apply andb_true_iff in H' as [Hc Hs].
  unfold parseInt. cbn [trimStart]. rewrite (digit_not_space _ Hc).
  pose proof (proj1 (digit_range c) Hc) as Hr.
  replace (c =? 45) with false by (symmetry; apply N.eqb_neq; lia).
  replace (c =? 43) with false by (symmetry; apply N.eqb_neq; lia).
  assert (match digitsPrefix 10 (c :: s) None with
          | Some n => to_number false n
          | None => NaN
          end = numeral (c :: s)) as G.
  { rewrite (digitsPrefix_digits _ _ H). reflexivity. }
  destruct s as [|c1 s']; [exact G|].
  simpl in Hs. apply andb_true_iff in Hs as [Hc1 _].
  apply digit_range in Hc1.
  replace (c1 =? 120) with false by (symmetry; apply N.eqb_neq; lia).
  replace (c1 =? 88) with false by (symmetry; apply N.eqb_neq; lia).
  rewrite andb_false_r. exact G.
Qed.

(** *** Rounding to a double *)

Lemma round53_small n : n < 2 ^ 53 -> round53 n = n.
Proof.
  intros H. unfold round53.
  assert (N.log2 n - 52 = 0) as ->; [|done].
  destruct (N.eq_dec n 0) as [->|Hn]; [done|].
  assert (N.log2 n < 53) by (apply N.log2_lt_pow2; lia). lia.
Qed.

Lemma round53_positive n : 1 <= n -> 1 <= round53 n.
Proof.
  intros H. unfold round53.
  destruct (N.eqb_spec (N.log2 n - 52) 0) as [|He]; [done|].
  set (e := N.log2 n - 52) in *. cbv zeta.
  rewrite N.shiftl_mul_pow2.
  assert (1 <= N.shiftr n e) as Hq.
  { rewrite N.shiftr_div_pow2.
    apply N.div_le_lower_bound; [by apply N.pow_nonzero|].
    rewrite N.mul_1_r.
    transitivity (2 ^ N.log2 n).
    - apply N.pow_le_mono_r; [done | lia].
    - apply N.log2_spec. lia. }
  assert (2 ^ e <> 0) by (by apply N.pow_nonzero).
  destruct ((_ <? _) || _)%bool; nia.
Qed.

Lemma to_number_small n :
  n < 2 ^ 53 -> to_number false n = Num (Z.of_N n).
Proof.
  intros H. unfold to_number. rewrite (round53_small _ H).
  destruct (N.leb_spec (2 ^ 1024) n) as [Hb|]; [|done].
  exfalso. assert (2 ^ 53 < 2 ^ 1024) by (by apply N.pow_lt_mono_r). lia.
Qed.

Lemma to_number_not_negative n : not_negative (to_number false n).
Proof.
  unfold to_number. destruct (_ <=? _); simpl; [done | lia].
Qed.

Lemma to_number_at_least_one n :
  at_least_one (to_number false n) <-> 1 <= n.
Proof.
  destruct (N.eq_dec n 0) as [->|Hn].
  - change (to_number false 0) with (Num 0). simpl. lia.
  - unfold to_number. pose proof (round53_positive n ltac:(lia)).
    destruct (_ <=? _); simpl; split; try done; lia.
Qed.

Lemma decimal_positive s :
  forallb isDigit s = true ->
  (1 <= decimal s <-> exists c, In c s /\ c <> 48).
Proof.
  unfold decimal. intros H.
  assert (forall a, 1 <= fold_left (fun a c => 10 * a + (c - 48)) s a
                    <-> 1 <= a \/ exists c, In c s /\ c <> 48) as G.
  { induction s as [|c s IH]; intros a; simpl.
    - split; [by left | intros [|(c & [] & _)]; done].
    - simpl in H. apply andb_true_iff in H as [Hc Hs].
      apply digit_range in Hc. rewrite (IH Hs). split.
      + intros [Ha | (c' & Hin & Hne)].
        * destruct (N.eq_dec c 48) as [->|]; [left; lia | right; eauto].
        * right. eauto.
      + intros [Ha | (c' & [<- | Hin] & Hne)].
        * left. lia.
        * left. lia.
        * right. eauto. }
  rewrite G. split; [intros [|]; [lia | done] | by right].
Qed.

(** *** One iteration, the loop, the function *)

Lemma severity_of_word g3 :
  g3 = js "error" \/ g3 = js "warning" \/ g3 = js "note" ->
  word_severity g3 (severity_of (Some g3)).
Proof. intros [-> | [-> | ->]]; vm_compute; constructor. Qed.

Lemma truthy_nonempty (g : jsstring) : g <> [] -> truthy (Some g) = true.
Proof. by destruct g. Qed.

(** A pushed diagnostic is the reading of its line. *)
Lemma line_diagnostic_sound ln d :
  line_diagnostic ln = Some d -> from_line ln d.
Proof.
  unfold line_diagnostic. destruct (str_match ln zig_regex) as [c|] eqn:Hm;
    [|discriminate].
  destruct (zig_match_sound _ _ Hm)
    as (path & g1 & g2 & g3 & g4 & Hs & -> & -> & -> & ->).
  pose proof Hs as (_ & _ & _ & N1 & D1 & N2 & D2 & W3 & N4 & _).
  assert (g3 <> []) as N3 by (by destruct W3 as [-> | [-> | ->]]).
  rewrite !truthy_nonempty by done. simpl. intros [= <-].
  exists path, g1, g2, g3, g4. simpl.
  rewrite !parseInt_digits by done.
  split; [exact Hs|]. repeat split. by apply severity_of_word.
Qed.

(** Every line of the shape pushes a diagnostic. *)
Lemma line_diagnostic_complete ln path g1 g2 g3 g4 :
  zig_shape ln path g1 g2 g3 g4 -> is_Some (line_diagnostic ln).
Proof.
  intros [c Hm]%zig_match_complete. unfold line_diagnostic. rewrite Hm.
  destruct (zig_match_sound _ _ Hm)
    as (path' & h1 & h2 & h3 & h4 & Hs & -> & -> & -> & ->).
  destruct Hs as (_ & _ & _ & N1 & _ & N2 & _ & W3 & N4 & _).
  rewrite !truthy_nonempty; [by eexists | done | | done | done].
  by destruct W3 as [-> | [-> | ->]].
Qed.

Lemma line_diagnostic_matched ln :
  is_Some (line_diagnostic ln) <-> is_Some (str_match ln zig_regex).
Proof.
  split.
  - unfold line_diagnostic. intros [d H].
    destruct (str_match ln zig_regex); [by eexists | discriminate].
  - intros [c Hm].
    destruct (zig_match_sound _ _ Hm) as (? & ? & ? & ? & ? & Hs & _).
    by eapply line_diagnostic_complete.
Qed.

Lemma matched_iff_shape ln :
  is_Some (str_match ln zig_regex)
  <-> exists path g1 g2 g3 g4, zig_shape ln path g1 g2 g3 g4.
Proof.
  split.
  - intros [c Hm].
    destruct (zig_match_sound _ _ Hm) as (? & ? & ? & ? & ? & Hs & _).
    eauto 10.
  - intros (? & ? & ? & ? & ? & Hs). by eapply zig_match_complete.
Qed.

(** The guard keeps every index read away from [null]. *)
Lemma parse_line_eq diagnostics ln :
  parse_line diagnostics ln
  = Normal (diagnostics ++ option_list (line_diagnostic ln)).
Proof.
  unfold parse_line, line_diagnostic, guard, prop.
  destruct (str_match ln zig_regex) as [c|]; simpl;
    [|by rewrite app_nil_r].
  destruct (truthy (c 1%nat)); simpl; [|by rewrite app_nil_r].
  destruct (truthy (c 2%nat)); simpl; [|by rewrite app_nil_r].
  destruct (truthy (c 3%nat)); simpl; [|by rewrite app_nil_r].
  destruct (truthy (c 4%nat)); simpl; [done | by rewrite app_nil_r].
Qed.

Lemma for_lines_eq lines : forall diagnostics,
  for_lines lines diagnostics
  = Normal (diagnostics ++ omap line_diagnostic lines).
Proof.
  induction lines as [|ln lines IH]; intros ds; csimpl.
  - by rewrite app_nil_r.
  - rewrite parse_line_eq. simpl. rewrite IH, <- app_assoc. f_equal.
    f_equal. by destruct (line_diagnostic ln).
Qed.

Lemma parseOutput_eq so se f r :
  parseOutput so se f r = Normal (omap line_diagnostic (split_nl se)).
Proof. unfold parseOutput. by rewrite for_lines_eq. Qed.

Lemma omap_length_le {A B} (g : A -> option B) (l : list A) :
  (length (omap g l) <= length l)%nat.
Proof.
  induction l as [|x l IH]; csimpl; [done|]. destruct (g x); simpl; lia.
Qed.

Lemma omap_filter_readings (l : list jsstring) :
  Forall2 from_line
    (filter (fun ln => is_Some (str_match ln zig_regex)) l)
    (omap line_diagnostic l).
Proof.
  induction l as [|ln l IH]; csimpl; [constructor|].
  rewrite filter_cons. destruct (line_diagnostic ln) as [d|] eqn:Hd.
  - rewrite decide_True by (apply line_diagnostic_matched; by eexists).
    constructor; [by apply line_diagnostic_sound | done].
  - rewrite decide_False; [done|].
    intros H%line_diagnostic_matched. rewrite Hd in H. by destruct H.
Qed.

(** A diagnostic of the result is the reading of one of the lines. *)
Lemma parseOutput_reading so se f r ds d :
  parseOutput so se f r = Normal ds -> In d ds ->
  exists ln, In ln (split_nl se) /\ from_line ln d.
Proof.
  rewrite parseOutput_eq. intros [= <-] Hin.
  apply list_elem_of_In, list_elem_of_omap in Hin as (ln & Hln & Hd).
  exists ln. split; [by apply list_elem_of_In|].
  by apply line_diagnostic_sound.
Qed.

(** *** The checker against its specification *)

(** C2: for every pair of strings (stdout, stderr), empty and malformed
    text included, [parseOutput] of the Zig configuration ends normally
    with a sequence of diagnostics, at most one per line of stderr, and
    never throws; empty output gives the empty sequence. *)
Theorem parseOutput_never_throws so se f r :
  (exists ds, parseOutput so se f r = Normal ds
              /\ (length ds <= length (split_nl se))%nat)
  /\ parseOutput so [] f r = Normal [].
Proof.
  split; [|reflexivity].
  rewrite parseOutput_eq. eexists. split; [done|]. apply omap_length_le.
Qed.

(** C10: the result of the Zig [parseOutput] is the same whatever stdout
    is; its diagnostics are the readings, in order, of exactly the lines
    of stderr that match the pattern, and a line matches when it has the
    shape [path:line:column: (error|warning|note): message]. *)
Theorem parseOutput_reads_stderr_only so se f r :
  exists ds,
    parseOutput so se f r = Normal ds
    /\ (forall so' f' r', parseOutput so' se f' r' = Normal ds)
    /\ Forall2 from_line
         (filter (fun ln => is_Some (str_match ln zig_regex)) (split_nl se))
         ds
    /\ (forall ln,
          is_Some (str_match ln zig_regex)
          <-> exists path g1 g2 g3 g4, zig_shape ln path g1 g2 g3 g4).
Proof.
  exists (omap line_diagnostic (split_nl se)). split; [|split; [|split]].
  - apply parseOutput_eq.
  - intros. apply parseOutput_eq.
  - apply omap_filter_readings.
  - apply matched_iff_shape.
Qed.


(** C4 as stated fails: the parser hands on a line 0 and a column 0
    that the tool printed. *)
Lemma zero_position_kept :
  exists d,
    parseOutput [] (js "a.zig:0:0: error: x") "a.zig" "." = Normal [d]
    /\ line d = Num 0 /\ column d = Num 0 /\ ~ one_indexed d.
Proof.
  exists (Diagnostic (Num 0) (Num 0) error (js "x")).
  split; [vm_compute; reflexivity|]. split; [reflexivity|].
  split; [reflexivity|].
  intros [Hl _]. simpl in Hl. lia.
Qed.

End ZigFacts.

(* ================================================================== *)
(** ** Facts about the status display *)
(* ================================================================== *)

Module StatusFacts.
Import JS Status.

Section PromiseAll.
Context {A : Type}.
Implicit Types (values : list A) (sched : list nat).

Lemma settle_length values slots i :
  length (settle values slots i) = length slots.
Proof.
  unfold settle. destruct (values !! i); [apply length_insert | done].
Qed.

Lemma foldl_settle_length values sched : forall slots,
  length (foldl (settle values) slots sched) = length slots.
Proof.
  induction sched as [|x sched IH]; intros slots; cbn [foldl]; [done|].
  by rewrite IH, settle_length.
Qed.

(** A slot holds the value of its own promise once that promise has
    settled, and is untouched before. *)
Lemma foldl_settle_lookup values sched : forall slots i,
  length slots = length values ->
  foldl (settle values) slots sched !! i
  = if decide (i ∈ sched) then Some <$> values !! i else slots !! i.
Proof.
  induction sched as [|x sched IH]; intros slots i Hlen; cbn [foldl].
  - case_decide as Hin; [by apply elem_of_nil in Hin | done].
  - rewrite IH by (by rewrite settle_length).
    destruct (decide (i ∈ sched)) as [Hin|Hin].
    + rewrite decide_True by (by right). done.
    + destruct (decide (i = x)) as [->|Hne].
      * rewrite decide_True by left. unfold settle.
        destruct (values !! x) as [v|] eqn:Hv; simpl.
        -- apply list_lookup_insert_eq. rewrite Hlen.
           by eapply lookup_lt_Some.
        -- apply lookup_ge_None. rewrite Hlen. by apply lookup_ge_None.
      * rewrite decide_False by (by intros [?|?]%elem_of_cons).
        unfold settle. destruct (values !! x); [|done].
        by apply list_lookup_insert_ne.
Qed.

(** Once every promise has settled, in whatever order, [Promise.all]
    hands over the values in the order of the promises. *)
Lemma promise_all_permutation values sched :
  sched ≡ₚ seq 0 (length values) ->
  promise_all values sched = Some values.
Proof.
  intros Hp. unfold promise_all.
  assert (foldl (settle values) (replicate (length values) None) sched
          = Some <$> values) as ->.
  { apply list_eq. intros i.
    rewrite foldl_settle_lookup by apply length_replicate.
    rewrite list_lookup_fmap. destruct (decide (i ∈ sched)) as [|Hn]; [done|].
    rewrite Hp, elem_of_seq in Hn.
    rewrite (proj2 (lookup_ge_None values i)) by lia. simpl.
    apply lookup_ge_None. rewrite length_replicate. lia. }
  by apply mapM_fmap_Some.
Qed.

(** Whatever the order and however many promises have settled,
    [Promise.all] hands over nothing but the values in the order of the
    promises. *)
Lemma promise_all_ordered values sched results :
  promise_all values sched = Some results -> results = values.
Proof.
  unfold promise_all. intros H%mapM_Some. simpl in H.
  pose proof (Forall2_length _ _ _ H) as Hlen.
  assert (length (foldl (settle values)
                    (replicate (length values) None) sched)
          = length values) as Hl.
  { by rewrite foldl_settle_length, length_replicate. }
  apply list_eq. intros i.
  destruct (results !! i) as [v|] eqn:Hv.
  - destruct (Forall2_lookup_r _ _ _ _ _ H Hv) as (o & Ho & ->).
    rewrite foldl_settle_lookup in Ho by apply length_replicate.
    destruct (decide (i ∈ sched)).
    + destruct (values !! i); by simplify_eq/=.
    + apply lookup_replicate in Ho as [? _]. done.
  - symmetry. apply lookup_ge_None. apply lookup_ge_None in Hv. lia.
Qed.
End PromiseAll.

Lemma foldl_push {A} (g : A -> string) (results : list A) :
  forall messages : list string,
    foldl (fun messages result => messages ++ [g result]) messages results
    = messages ++ map g results.
Proof.
  induction results as [|r results IH]; intros ms; simpl.
  - by rewrite app_nil_r.
  - by rewrite IH, <- app_assoc.
Qed.

(** C9: the status display lists the results of the probes in the
    order of the [languages] list: whatever the order [sched] in which
    the concurrent probes complete, a display that is produced is the
    one in request order, and it is produced once every probe has
    completed. *)
Theorem status_display_in_request_order execCommand loadConfig sched :
  (forall messages,
     status_messages execCommand loadConfig sched = Some messages ->
     messages = in_request_order execCommand loadConfig)
  /\ (sched ≡ₚ seq 0 (length languages) ->
      status_messages execCommand loadConfig sched
      = Some (in_request_order execCommand loadConfig)
      /\ showStatus execCommand loadConfig sched
         = Some (String.concat nl
                   (in_request_order execCommand loadConfig))).
Proof.
  assert (sched ≡ₚ seq 0 (length languages) ->
          status_messages execCommand loadConfig sched
          = Some (in_request_order execCommand loadConfig)) as Hall.
  { intros Hp. unfold status_messages, in_request_order.
    destruct (read_config loadConfig) as [gd dl]. cbn [fst snd].
    rewrite (promise_all_permutation _ sched) by exact Hp.
    by rewrite foldl_push, map_map. }
  split.
  - intros messages H. unfold status_messages, in_request_order in *.
    destruct (read_config loadConfig) as [gd dl]. cbn [fst snd].
    destruct (promise_all _ sched) as [results|] eqn:Hr; [|discriminate].
    apply promise_all_ordered in Hr as ->.
    rewrite foldl_push, map_map in H. congruence.
  - intros Hp. split; [by apply Hall|].
    unfold showStatus. by rewrite Hall.
Qed.

Lemma status_display_in_request_order_witness :
  let execCommand := fun argv : list string =>
    if bool_decide (argv = ["zig"; "version"]%string)
    then Normal 0%Z else Throw TypeError in
  let sched := [11; 3; 0; 7; 1; 2; 4; 10; 5; 6; 9; 8]%nat in
  sched ≡ₚ seq 0 (length languages)
  /\ status_messages execCommand (Throw TypeError) sched
     = Some (in_request_order execCommand (Throw TypeError))
  /\ showStatus execCommand (Throw TypeError) sched
     = Some (String.concat nl
               (in_request_order execCommand (Throw TypeError)))
  /\ in_request_order execCommand (Throw TypeError)
     = in_request_order execCommand (Throw TypeError).
Proof.
  intros execCommand sched.
  assert (sched ≡ₚ seq 0 (length languages)) as Hp
    by (apply (bool_decide_unpack _); vm_compute; reflexivity).
  pose proof (proj2 (status_display_in_request_order execCommand
                       (Throw TypeError) sched) Hp) as [Hm Hs].
  split; [exact Hp|]. split; [exact Hm|]. split; [exact Hs|].
  exact (proj1 (status_display_in_request_order execCommand
                  (Throw TypeError) sched) _ Hm).
Defined.

End StatusFacts.

(* ================================================================== *)
(** ** Facts about the dispatch core *)
(* ================================================================== *)

Module CoreFacts.
Import JS Zig Status Core.
Local Open Scope string_scope.

(** *** The tally *)

Lemma tally_from acc ds :
  foldl (fun acc d =>
           match severity d with
           | error => (S acc.1, acc.2)
           | warning => (acc.1, S acc.2)
           | info => acc
           end) acc ds
  = (acc.1 + count_severity error ds, acc.2 + count_severity warning ds)%nat.
Proof.
  revert acc. unfold count_severity.
  induction ds as [|d ds IH]; intros [e w]; cbn [foldl].
  - simpl. f_equal; lia.
  - rewrite IH, !filter_cons.
    destruct (severity d); repeat case_decide; try done; simpl;
      f_equal; lia.
Qed.

(** The single pass counts the errors and the warnings. *)
Lemma tally_counts ds :
  tally ds = (count_severity error ds, count_severity warning ds).
Proof. unfold tally. by rewrite tally_from. Qed.

Lemma count_zero sev ds :
  count_severity sev ds = 0%nat <-> Forall (fun d => severity d <> sev) ds.
Proof.
  unfold count_severity. induction ds as [|d ds IH].
  - split; [constructor | done].
  - rewrite filter_cons, Forall_cons. case_decide; simpl.
    + split; [done | by intros [? _]].
    + rewrite IH. split; [done | by intros [_ ?]].
Qed.

Lemma no_issue_iff ds :
  (count_severity error ds = 0 /\ count_severity warning ds = 0)%nat
  <-> Forall (fun d => severity d = info) ds.
Proof.
  rewrite !count_zero, <- Forall_and. apply Forall_iff. intros d.
  destruct (severity d); split; try done; intros [? ?]; done.
Qed.

Lemma some_issue_iff ds :
  Exists is_issue ds <-> ~ Forall (fun d => severity d = info) ds.
Proof.
  unfold is_issue. induction ds as [|d ds IH].
  - split; [by intros ?%Exists_nil | intros []; constructor].
  - rewrite Exists_cons, Forall_cons, IH. destruct (severity d).
    + split; [by intros _ [? _] | by left; left].
    + split; [by intros _ [? _] | by left; right].
    + split.
      * intros [[|]|Hn]; [done | done | by intros [_ ?]].
      * intros Hn. right. intros ?. by apply Hn.
Qed.

Lemma exit_code_clean ds :
  Forall (fun d => severity d = info) ds -> exit_code ds = 0%Z.
Proof.
  intros H%no_issue_iff. unfold exit_code. rewrite tally_counts.
  by rewrite bool_decide_true.
Qed.

Lemma exit_code_issue ds : Exists is_issue ds -> exit_code ds = 2%Z.
Proof.
  intros H%some_issue_iff. unfold exit_code. rewrite tally_counts.
  rewrite bool_decide_false; [done|]. by rewrite no_issue_iff.
Qed.

Lemma exitCode_format detail mode res :
  exitCode (format detail mode res) = exit_code (diagnostics res).
Proof. by destruct mode. Qed.

(** *** The formatter *)

(** C1: for every CheckResult and in either mode, the exit code that the
    formatter derives is 0 when the diagnostics are empty or all of
    severity [info], and 2 when one of them is an error or a warning. *)
Theorem exit_code_by_severity detail mode res :
  (Forall (fun d => severity d = info) (diagnostics res) ->
   exitCode (format detail mode res) = 0%Z)
  /\ (Exists is_issue (diagnostics res) ->
      exitCode (format detail mode res) = 2%Z).
Proof.
  rewrite exitCode_format. split.
  - apply exit_code_clean.
  - apply exit_code_issue.
Qed.

Lemma exit_code_by_severity_witness :
  let note := Diagnostic (Num 1) (Num 2) info (js "declared here") in
  let err := Diagnostic (Num 3) (Num 14) error (js "unused local constant") in
  let res ds := {| file := "a.zig"; language := Some "Zig";
                   diagnostics := ds; toolAvailable := true;
                   condition := tool_ran |} in
  exitCode (format (fun _ => "") Hook (res [note])) = 0%Z
  /\ exitCode (format (fun _ => "") Plain (res [note; err])) = 2%Z.
Proof.
  intros note err res. split.
  - apply (proj1 (exit_code_by_severity (fun _ => "") Hook (res [note]))).
    repeat constructor.
  - apply (proj2 (exit_code_by_severity (fun _ => "") Plain
                    (res [note; err]))).
    right. left. left. reflexivity.
Defined.

(** *** The engine and the hook *)

(** C5: a hook invocation whose payload is missing or malformed, or
    whose tool name is not one that creates or edits a file, exits with
    code 0, writes nothing, and leaves the Check Engine uncalled. *)
Theorem hook_fails_open detail resolve find_tool run_tool loadConfig
    parse_payload triggers stdin w :
  parse_payload stdin = None
  \/ (exists ev, parse_payload stdin = Some ev
                 /\ triggers (tool_name ev) = false) ->
  exists out w',
    hook_handler detail resolve find_tool run_tool loadConfig
      parse_payload triggers stdin w = (out, w')
    /\ exitCode out = 0%Z /\ stdout out = [] /\ stderr out = []
    /\ engine_calls w' = engine_calls w /\ spawned w' = spawned w.
Proof.
  intros H. exists silent, w. unfold hook_handler.
  destruct H as [-> | (ev & -> & ->)]; repeat split.
Qed.

Lemma hook_fails_open_witness :
  let parse_payload := fun stdin : string =>
    if bool_decide (stdin = "read event")
    then Some {| tool_name := "Read"; file_path := "a.zig"; cwd := "/tmp" |}
    else None in
  let triggers := fun t : string =>
    bool_decide (t = "Edit") || bool_decide (t = "Write") in
  let w := {| engine_calls := []; spawned := [] |} in
  (parse_payload "read event" = None
   \/ exists ev, parse_payload "read event" = Some ev
                 /\ triggers (tool_name ev) = false)
  /\ exists out w',
       hook_handler (fun _ => "") (fun _ => Some zigConfig)
         (fun _ _ => Some "zig") (fun _ _ => ToolNotFound)
         (Throw TypeError) parse_payload triggers "read event" w
       = (out, w')
       /\ exitCode out = 0%Z /\ stdout out = [] /\ stderr out = []
       /\ engine_calls w' = engine_calls w /\ spawned w' = spawned w.
Proof.
  intros parse_payload triggers w.
  assert (parse_payload "read event" = None
          \/ exists ev, parse_payload "read event" = Some ev
                        /\ triggers (tool_name ev) = false) as H.
  { right. eexists. split; vm_compute; reflexivity. }
  split; [exact H|].
  exact (hook_fails_open (fun _ => "") (fun _ => Some zigConfig)
           (fun _ _ => Some "zig") (fun _ _ => ToolNotFound)
           (Throw TypeError) parse_payload triggers "read event" w H).
Defined.



(** The hook on a Zig file with one error: the payload on standard
    error, exit code 2, one process spawned. *)
Example hook_on_zig_error :
  hook_handler (fun d => "unused local constant")
    (fun f => if bool_decide (f = "a.zig") then Some zigConfig else None)
    (fun _ _ => Some "zig")
    (fun _ _ => Exited [] (js "a.zig:3:14: error: unused local constant") 1)
    (Throw TypeError)
    (fun stdin =>
       if bool_decide (stdin = "edit event")
       then Some {| tool_name := "Edit"; file_path := "a.zig";
                    cwd := "/tmp" |}
       else None)
    (fun t => bool_decide (t = "Edit"))
    "edit event" {| engine_calls := []; spawned := [] |}
  = ({| stdout := [];
        stderr := [osc_open ++ "✗ 1 error(s), 0 warning(s)" ++ nl
                   ++ "unused local constant" ++ osc_close];
        exitCode := 2 |},
     {| engine_calls := ["a.zig"];
        spawned := [["zig"; "ast-check"; "a.zig"]] |}).
Proof. vm_compute. reflexivity. Qed.

(** C6: when the configuration resolved for a file is disabled, by the
    global flag or by the flag of its language, the check returns an
    empty result, the exit code is 0 in either mode, and no process is
    spawned. *)
Theorem disabled_language_not_checked detail resolve find_tool run_tool
    loadConfig f projectRoot w config :
  resolve f = Some config ->
  isDisabled (read_config loadConfig).1 (read_config loadConfig).2
    (lc_name config) = true ->
  exists res w',
    check_engine resolve find_tool run_tool loadConfig f projectRoot w
    = (res, w')
    /\ diagnostics res = [] /\ spawned w' = spawned w
    /\ (forall mode, exitCode (format detail mode res) = 0%Z).
Proof.
  intros Hr Hd. unfold check_engine. rewrite Hr.
  destruct (read_config loadConfig) as [gd dl]. simpl in Hd. rewrite Hd.
  eexists _, _. split; [reflexivity|]. repeat split.
  intros mode. by destruct mode.
Qed.

Lemma disabled_language_not_checked_witness :
  let resolve := fun f : string =>
    if bool_decide (f = "a.zig") then Some zigConfig else None in
  let find_tool := fun (_ : LanguageConfig) (_ : string) => Some "zig" in
  let run_tool := fun (_ : list string) (_ : string) =>
    Exited [] (js "a.zig:1:1: error: x") 1 in
  let loadConfig := Normal
    {| disable := None; disableScala := None; disableTypeScript := None;
       disablePython := None; disableGo := None; disableRust := None;
       disableJava := None; disableCpp := None; disablePhp := None;
       disableLua := None; disableElixir := None;
       disableTerraform := Some false; disableZig := Some true |} in
  let w := {| engine_calls := []; spawned := [] |} in
  resolve "a.zig" = Some zigConfig
  /\ isDisabled (read_config loadConfig).1 (read_config loadConfig).2
       (lc_name zigConfig) = true
  /\ exists res w',
       check_engine resolve find_tool run_tool loadConfig "a.zig" "/tmp" w
       = (res, w')
       /\ diagnostics res = [] /\ spawned w' = spawned w
       /\ (forall mode, exitCode (format (fun _ => "") mode res) = 0%Z).
Proof.
  intros resolve find_tool run_tool loadConfig w.
  assert (resolve "a.zig" = Some zigConfig) as Hr
    by (vm_compute; reflexivity).
  assert (isDisabled (read_config loadConfig).1 (read_config loadConfig).2
            (lc_name zigConfig) = true) as Hd
    by (vm_compute; reflexivity).
  split; [exact Hr|]. split; [exact Hd|].
  exact (disabled_language_not_checked (fun _ => "") resolve find_tool
           run_tool loadConfig "a.zig" "/tmp" w zigConfig Hr Hd).
Defined.

End CoreFacts.

(* ================================================================== *)
(** ** More about the Zig checker *)
(* ================================================================== *)

Module ZigMore.
Import JS Regex RegexFacts Zig ZigFacts.

(** *** The lazy prefix takes the first position that works *)

Lemma rep_lazy_first a s i c k r :
  rep_lazy a s i c k = Some r ->
  exists w s',
    s = w ++ s' /\ w <> [] /\ forallb (cls_match a) w = true
    /\ k (MState s' (i + length w) c) = Some r
    /\ forall w1 w2, w = w1 ++ w2 -> w1 <> [] -> w2 <> [] ->
         k (MState (w2 ++ s') (i + length w1) c) = None.
Proof.
  revert i. induction s as [|ch s IH]; intros i H; simpl in H; [discriminate|].
  destruct (cls_match a ch) eqn:Hc; [|discriminate].
  destruct (k (MState s (S i) c)) eqn:Hk.
  - injection H as <-. exists [ch], s. simpl. rewrite Hc.
    repeat split; try done.
    + rewrite <- Hk. f_equal. f_equal. lia.
    + intros [|? [|? ?]] [|? ?] E; try done; destruct w2; done.
  - destruct (IH _ H) as (w & s' & -> & Hw & Hall & Hk' & Hmin).
    exists (ch :: w), s'. simpl. rewrite Hc, Hall.
    repeat split; try done.
    + rewrite <- Hk'. f_equal. f_equal. lia.
    + intros [|c1 w1] w2 E N1 N2; [done|]. simpl in E. injection E as <- ->.
      destruct w1 as [|c2 w1].
      * simpl. rewrite <- Hk. f_equal. f_equal. lia.
      * replace (i + length (ch :: c2 :: w1))%nat
          with (S i + length (c2 :: w1))%nat by (simpl; lia).
        by apply Hmin.
Qed.

Lemma exec_from_unfold r s i :
  exec_from r s i
  = match m r (MState s i no_captures)
            (fun y => Some (upd 0 (take (idx y - i) s) (caps y))) with
    | Some c => Some c
    | None =>
        match s with
        | [] => None
        | _ :: s' => exec_from r s' (S i)
        end
    end.
Proof. by destruct s. Qed.

Lemma m_zig_regex x k :
  m zig_regex x k
  = if Nat.eqb (idx x) 0
    then rep_lazy Dot (rest x) (idx x) (caps x) (fun y => m zig_tail y k)
    else None.
Proof. reflexivity. Qed.

Lemma exec_from_later s : forall i,
  exec_from zig_regex s (S i) = None.
Proof.
  induction s as [|ch s IH]; intros i; rewrite exec_from_unfold, m_zig_regex;
    simpl; [done | apply IH].
Qed.

(** [match] on a line is the lazy prefix followed by the rest of the
    pattern, from index 0. *)
Lemma str_match_lazy ln c :
  str_match ln zig_regex = Some c ->
  rep_lazy Dot ln 0 no_captures
    (fun y => m zig_tail y
                (fun z => Some (upd 0 (take (idx z - 0) ln) (caps z))))
  = Some c.
Proof.
  unfold str_match. rewrite exec_from_unfold, m_zig_regex. simpl.
  destruct (rep_lazy _ _ _ _ _); [done|].
  destruct ln; [done|]. by rewrite exec_from_later.
Qed.

(** *** The rest of the pattern *)

Lemma zig_shape_tail ln path g1 g2 g3 g4 :
  zig_shape ln path g1 g2 g3 g4
  <-> ln = path ++ tail_of g1 g2 g3 g4 /\ path <> []
      /\ forallb not_terminator path = true /\ tail_ok g1 g2 g3 g4.
Proof. unfold zig_shape, tail_ok, tail_of. tauto. Qed.

Lemma zig_tail_inv x y :
  matches zig_tail x y ->
  exists g1 g2 g3 g4,
    rest x = tail_of g1 g2 g3 g4 /\ tail_ok g1 g2 g3 g4
    /\ caps y = upd 4 g4 (upd 3 g3 (upd 2 g2 (upd 1 g1 (caps x)))).
Proof.
  unfold zig_tail. intros H.
  apply seq_inv in H as (x2 & H2 & H). apply lit_inv in H2 as (E2 & _ & C2).
  apply seq_inv in H as (x3 & H3 & H).
  apply group_inv in H3 as (y3 & g1 & H3 & E3 & _ & ->).
  apply plus_inv in H3 as (g1' & E3' & Hg1 & Hg1a & _ & C3).
  assert (g1' = g1) as -> by (rewrite E3 in E3'; by apply app_inv_tail in E3').
  simpl in H.
  apply seq_inv in H as (x4 & H4 & H). apply lit_inv in H4 as (E4 & _ & C4).
  apply seq_inv in H as (x5 & H5 & H).
  apply group_inv in H5 as (y5 & g2 & H5 & E5 & _ & ->).
  apply plus_inv in H5 as (g2' & E5' & Hg2 & Hg2a & _ & C5).
  assert (g2' = g2) as -> by (rewrite E5 in E5'; by apply app_inv_tail in E5').
  simpl in H.
  apply seq_inv in H as (x6 & H6 & H). apply lit_inv in H6 as (E6 & _ & C6).
  apply seq_inv in H as (x7 & H7 & H).
  apply group_inv in H7 as (y7 & g3 & H7 & E7 & _ & ->).
  apply severity_group_inv in H7 as (g3' & Hg3 & E7' & C7).
  assert (g3' = g3) as -> by (rewrite E7 in E7'; by apply app_inv_tail in E7').
  simpl in H.
  apply seq_inv in H as (x8 & H8 & H). apply lit_inv in H8 as (E8 & _ & C8).
  apply seq_inv in H as (x9 & H9 & H).
  apply group_inv in H9 as (y9 & g4 & H9 & E9 & _ & ->).
  apply plus_inv in H9 as (g4' & E9' & Hg4 & Hg4a & _ & C9).
  assert (g4' = g4) as -> by (rewrite E9 in E9'; by apply app_inv_tail in E9').
  inversion H as [| |? Hend| | | | | |]; subst. simpl in *.
  exists g1, g2, g3, g4. split; [|split].
  - unfold tail_of. rewrite E2, E3, E4, E5, E6, E7, E8, E9, Hend.
    by rewrite app_nil_r.
  - repeat split; done.
  - rewrite C9, C8, C7, C6, C5, C4, C3, C2. done.
Qed.

Lemma zig_tail_intro g1 g2 g3 g4 i c :
  tail_ok g1 g2 g3 g4 ->
  exists y, matches zig_tail (MState (tail_of g1 g2 g3 g4) i c) y.
Proof.
  intros (Hg1 & Hg1a & Hg2 & Hg2a & Hg3 & Hg4 & Hg4a).
  unfold zig_tail, tail_of. eexists.
  eapply M_Seq; [apply lit_intro|].
  eapply M_Seq; [by apply group_intro, plus_intro|].
  eapply M_Seq; [apply lit_intro|].
  eapply M_Seq; [by apply group_intro, plus_intro|].
  eapply M_Seq; [apply lit_intro|].
  eapply M_Seq; [by apply group_intro, severity_group_intro|].
  eapply M_Seq; [apply lit_intro|].
  eapply M_Seq.
  - rewrite <- (app_nil_r g4) at 1. by apply group_intro, plus_intro.
  - by apply M_Eol.
Qed.

(** A numeral ends where the first character that is no digit stands. *)
Lemma digits_split (w1 w2 r1 r2 : jsstring) c1 c2 :
  forallb isDigit w1 = true -> forallb isDigit w2 = true ->
  isDigit c1 = false -> isDigit c2 = false ->
  w1 ++ c1 :: r1 = w2 ++ c2 :: r2 -> w1 = w2 /\ c1 :: r1 = c2 :: r2.
Proof.
  revert w2. induction w1 as [|a w1 IH]; intros [|b w2] H1 H2 N1 N2 E;
    simpl in *.
  - done.
  - injection E as -> _. apply andb_true_iff in H2 as [? _]. congruence.
  - injection E as -> _. apply andb_true_iff in H1 as [? _]. congruence.
  - injection E as -> E. apply andb_true_iff in H1 as [_ H1].
    apply andb_true_iff in H2 as [_ H2].
    destruct (IH _ H1 H2 N1 N2 E) as [-> ?]. done.
Qed.

(** With the path fixed, a line has one reading. *)
Lemma tail_of_inj g1 g2 g3 g4 h1 h2 h3 h4 :
  tail_ok g1 g2 g3 g4 -> tail_ok h1 h2 h3 h4 ->
  tail_of g1 g2 g3 g4 = tail_of h1 h2 h3 h4 ->
  g1 = h1 /\ g2 = h2 /\ g3 = h3 /\ g4 = h4.
Proof.
  intros (_ & G1 & _ & G2 & G3 & _ & _) (_ & H1 & _ & H2 & H3 & _ & _) E.
  unfold tail_of in E. change (js ":") with [58] in E.
  change (js ": ") with [58; 32] in E. simpl in E. injection E as E.
  apply digits_split in E as [-> E]; try done. injection E as E.
  apply digits_split in E as [-> E]; try done. injection E as E.
  assert (g3 = h3) as ->.
  { destruct G3 as [-> | [-> | ->]], H3 as [-> | [-> | ->]];
      try done; vm_compute in E; discriminate. }
  apply app_inv_head in E. injection E as ->. done.
Qed.

(** *** The reading that [match] takes *)

Lemma prefix_cases {A} (p q s t : list A) :
  p ++ s = q ++ t -> (length p <= length q)%nat ->
  exists l, q = p ++ l /\ s = l ++ t.
Proof.
  intros E Hl. apply app_eq_app in E as [l [[-> ->] | [-> ->]]].
  - rewrite length_app in Hl. destruct l; [|simpl in Hl; lia].
    exists []. by rewrite !app_nil_r.
  - by exists l.
Qed.

(** Of all the readings of a line, [match] takes the one with the
    shortest path. *)
Lemma zig_match_minimal ln c :
  str_match ln zig_regex = Some c ->
  exists path g1 g2 g3 g4,
    zig_shape ln path g1 g2 g3 g4
    /\ c 1%nat = Some g1 /\ c 2%nat = Some g2
    /\ c 3%nat = Some g3 /\ c 4%nat = Some g4
    /\ forall path' h1 h2 h3 h4,
         zig_shape ln path' h1 h2 h3 h4 ->
         (length path <= length path')%nat.
Proof.
  intros H%str_match_lazy.
  apply rep_lazy_first in H as (w & s' & -> & Hw & Hall & Hk & Hmin).
  apply m_sound in Hk as (y & Hy & [= <-]).
  apply zig_tail_inv in Hy as (g1 & g2 & g3 & g4 & E & Hok & C).
  simpl in E, C. subst s'. exists w, g1, g2, g3, g4.
  split; [by apply zig_shape_tail|].
  rewrite C. do 4 (split; [reflexivity|]).
  intros path' h1 h2 h3 h4 (E' & Np & _ & Hok')%zig_shape_tail.
  destruct (le_lt_dec (length w) (length path')) as [|Hlt]; [done|].
  exfalso. symmetry in E'.
  apply prefix_cases in E' as (l & -> & El); [|lia].
  assert (l <> []) as Nl
    by (intros ->; rewrite app_nil_r in Hlt; lia).
  specialize (Hmin path' l eq_refl Np Nl). rewrite <- El in Hmin.
  destruct (zig_tail_intro h1 h2 h3 h4 (0 + length path') no_captures Hok')
    as [y' Hy'].
  by apply (m_complete _ _ _ Hmin) in Hy'.
Qed.

Lemma word_severity_fun g3 s1 s2 :
  word_severity g3 s1 -> word_severity g3 s2 -> s1 = s2.
Proof. intros H1 H2. inversion H1; subst; inversion H2; subst; done. Qed.

(** The diagnostic of a line is what its first reading gives. *)
Lemma line_diagnostic_reads ln d :
  line_diagnostic ln = Some d -> reads ln d.
Proof.
  unfold line_diagnostic. destruct (str_match ln zig_regex) as [c|] eqn:Hm;
    [|discriminate].
  destruct (zig_match_minimal _ _ Hm)
    as (path & g1 & g2 & g3 & g4 & Hs & -> & -> & -> & -> & Hmin).
  pose proof Hs as (_ & _ & _ & N1 & D1 & N2 & D2 & W3 & N4 & _).
  assert (g3 <> []) as N3 by (by destruct W3 as [-> | [-> | ->]]).
  rewrite !truthy_nonempty by done. simpl. intros [= <-].
  exists path, g1, g2, g3, g4. simpl.
  rewrite !parseInt_digits by done.
  split; [by split|]. repeat split. by apply severity_of_word.
Qed.

(** A line has one first reading. *)
Lemma first_reading_unique ln p g1 g2 g3 g4 q h1 h2 h3 h4 :
  first_reading ln p g1 g2 g3 g4 -> first_reading ln q h1 h2 h3 h4 ->
  p = q /\ g1 = h1 /\ g2 = h2 /\ g3 = h3 /\ g4 = h4.
Proof.
  intros [Hs Hmin] [Hs' Hmin'].
  pose proof (Hmin _ _ _ _ _ Hs') as L1.
  pose proof (Hmin' _ _ _ _ _ Hs) as L2.
  apply zig_shape_tail in Hs as (E & _ & _ & Hok).
  apply zig_shape_tail in Hs' as (E' & _ & _ & Hok').
  rewrite E in E'. apply prefix_cases in E' as (l & -> & El); [|done].
  assert (l = []) as ->.
  { destruct l; [done|]. rewrite length_app in L2. simpl in L2. lia. }
  rewrite app_nil_r. simpl in El.
  destruct (tail_of_inj _ _ _ _ _ _ _ _ Hok Hok' El) as (-> & -> & -> & ->).
  done.
Qed.

(** What a line reads as is determined by the line. *)
Lemma reads_unique ln d d' : reads ln d -> reads ln d' -> d = d'.
Proof.
  intros (p & g1 & g2 & g3 & g4 & Hf & Hl & Hc & Hw & Hm)
         (q & h1 & h2 & h3 & h4 & Hf' & Hl' & Hc' & Hw' & Hm').
  destruct (first_reading_unique _ _ _ _ _ _ _ _ _ _ _ Hf Hf')
    as (_ & -> & -> & -> & ->).
  pose proof (word_severity_fun _ _ _ Hw Hw').
  destruct d, d'; simpl in *; congruence.
Qed.

Lemma omap_filter_reads (l : list jsstring) :
  Forall2 reads
    (filter (fun ln => is_Some (str_match ln zig_regex)) l)
    (omap line_diagnostic l).
Proof.
  induction l as [|ln l IH]; csimpl; [constructor|].
  rewrite filter_cons. destruct (line_diagnostic ln) as [d|] eqn:Hd.
  - rewrite decide_True by (apply line_diagnostic_matched; by eexists).
    constructor; [by apply line_diagnostic_reads | done].
  - rewrite decide_False; [done|].
    intros H%line_diagnostic_matched. rewrite Hd in H. by destruct H.
Qed.

(** The diagnostics are what the matched lines read as, one for one and
    in order. *)
Lemma parseOutput_reads so se f r :
  exists ds,
    parseOutput so se f r = Normal ds
    /\ Forall2 reads (matched_lines se) ds.
Proof.
  eexists. split; [apply parseOutput_eq | apply omap_filter_reads].
Qed.


Lemma no_colon_digit_app p d q :
  no_colon_digit (p ++ 58 :: d :: q) = true -> isDigit d = false.
Proof.
  induction p as [|a p IH]; intros H.
  - simpl in H. apply andb_true_iff in H as [H _].
    by destruct (isDigit d).
  - apply IH. destruct p; simpl in H |- *;
      apply andb_true_iff in H as [_ H]; exact H.
Qed.

(** *** Lines and line terminators *)

Lemma digits_not_terminator g :
  forallb isDigit g = true -> forallb not_terminator g = true.
Proof.
  induction g as [|c g IH]; simpl; [done|].
  intros [Hc Hg]%andb_true_iff. rewrite (IH Hg), andb_true_r.
  apply digit_range in Hc. unfold not_terminator, isLineTerminator.
  apply negb_true_iff.
  repeat match goal with
         | |- (_ || _)%bool = false => apply orb_false_intro
         | |- (_ =? _) = false => apply N.eqb_neq; lia
         end.
Qed.

(** A line that [match] accepts holds no line terminator. *)
Lemma shape_no_terminator ln path g1 g2 g3 g4 :
  zig_shape ln path g1 g2 g3 g4 -> forallb not_terminator ln = true.
Proof.
  intros (-> & _ & Hp & _ & D1 & _ & D2 & W3 & _ & H4).
  rewrite !forallb_app, Hp, H4, (digits_not_terminator _ D1),
    (digits_not_terminator _ D2).
  by destruct W3 as [-> | [-> | ->]].
Qed.

Lemma not_terminator_not_lf c : not_terminator c = true -> (c =? 0x0A) = false.
Proof.
  unfold not_terminator, isLineTerminator. intros H%negb_true_iff.
  by apply orb_false_elim in H as [[[H _]%orb_false_elim _]%orb_false_elim _].
Qed.

Lemma split_nl_one ln :
  forallb not_terminator ln = true -> split_nl ln = [ln].
Proof.
  induction ln as [|c ln IH]; simpl; [done|].
  intros [Hc Hl]%andb_true_iff.
  by rewrite (not_terminator_not_lf _ Hc), (IH Hl).
Qed.

Lemma split_nl_cons s : exists l ls, split_nl s = l :: ls.
Proof.
  induction s as [|c s (l & ls & E)]; simpl; [by eexists _, _|].
  destruct (c =? 10); [by eexists _, _|]. rewrite E. by eexists _, _.
Qed.

(** Splitting distributes over a line feed. *)
Lemma split_nl_app a b :
  split_nl (a ++ LF ++ b) = split_nl a ++ split_nl b.
Proof.
  induction a as [|c a IH]; [done|]. simpl in *.
  destruct (c =? 10); [by rewrite IH|]. rewrite IH.
  destruct (split_nl_cons a) as (l & ls & ->). done.
Qed.

Lemma omap_none {A B} (g : A -> option B) (l : list A) :
  (forall x, In x l -> g x = None) -> omap g l = [].
Proof.
  induction l as [|x l IH]; intros H; csimpl; [done|].
  rewrite (H x) by (by left). apply IH. intros y Hy. apply H. by right.
Qed.

(** *** The checker against its specification, line by line *)


Lemma numeral_small g :
  decimal g < 2 ^ 53 -> numeral g = Num (Z.of_N (decimal g)).
Proof. apply to_number_small. Qed.

Lemma numeral_at_least_one g :
  forallb isDigit g = true ->
  (at_least_one (numeral g) <-> has_nonzero_digit g).
Proof.
  intros D. unfold numeral. rewrite to_number_at_least_one.
  apply (decimal_positive _ D).
Qed.

(** C4, as the code has it: the line and the column of each diagnostic
    of the Zig parser are what [parseInt] gives for the two numerals of
    the first reading of its own line, without adjustment: the value of
    the numeral when it is below 2^53, the nearest double above, never
    NaN and never negative. They are at least 1 exactly when each
    numeral has a digit other than 0. *)
Theorem position_from_own_line so se f r :
  exists ds,
    parseOutput so se f r = Normal ds
    /\ Forall2
         (fun ln d =>
            exists path g1 g2 g3 g4,
              first_reading ln path g1 g2 g3 g4
              /\ line d = numeral g1 /\ column d = numeral g2
              /\ not_negative (line d) /\ not_negative (column d)
              /\ (decimal g1 < 2 ^ 53 -> line d = Num (Z.of_N (decimal g1)))
              /\ (decimal g2 < 2 ^ 53 ->
                  column d = Num (Z.of_N (decimal g2)))
              /\ (one_indexed d
                  <-> has_nonzero_digit g1 /\ has_nonzero_digit g2))
         (matched_lines se) ds.
Proof.
  destruct (parseOutput_reads so se f r) as (ds & H & Hr).
  exists ds. split; [exact H|].
  eapply Forall2_impl; [exact Hr|].
  intros ln d (path & g1 & g2 & g3 & g4 & Hf & Hl & Hc & _ & _).
  exists path, g1, g2, g3, g4.
  pose proof Hf as [(_ & _ & _ & _ & D1 & _ & D2 & _) _].
  split; [exact Hf|]. split; [exact Hl|]. split; [exact Hc|].
  rewrite Hl, Hc.
  split; [apply to_number_not_negative|].
  split; [apply to_number_not_negative|].
  split; [apply numeral_small|]. split; [apply numeral_small|].
  unfold one_indexed. rewrite Hl, Hc.
  by rewrite (numeral_at_least_one _ D1), (numeral_at_least_one _ D2).
Qed.

(** *** What a user of the checker can rely on *)

(** X1: a line [path:line:column: word: message] whose path has no
    colon directly followed by a digit is read back exactly: one
    diagnostic with the Numbers of the two numerals, which are their
    values below 2^53, the severity of the word, and the message as
    written, whatever the message holds. *)
Theorem line_read_back so ln path g1 g2 g3 g4 sev f r :
  zig_shape ln path g1 g2 g3 g4 ->
  no_colon_digit path = true ->
  word_severity g3 sev ->
  parseOutput so ln f r
  = Normal [Diagnostic (numeral g1) (numeral g2) sev g4]
  /\ (decimal g1 < 2 ^ 53 -> numeral g1 = Num (Z.of_N (decimal g1)))
  /\ (decimal g2 < 2 ^ 53 -> numeral g2 = Num (Z.of_N (decimal g2))).
Proof.
  intros Hs Hp Hw. split; [|split; apply numeral_small].
  rewrite parseOutput_eq.
  rewrite (split_nl_one _ (shape_no_terminator _ _ _ _ _ _ Hs)). csimpl.
  destruct (line_diagnostic_complete _ _ _ _ _ _ Hs) as [d Hd]. rewrite Hd.
  destruct (line_diagnostic_reads _ _ Hd)
    as (pm & h1 & h2 & h3 & h4 & [Hm Hmin] & Hl & Hc & Hv & Hmsg).
  specialize (Hmin _ _ _ _ _ Hs).
  apply zig_shape_tail in Hs as (E & _ & _ & Hok).
  apply zig_shape_tail in Hm as (Em & _ & _ & Hokm).
  rewrite Em in E. apply prefix_cases in E as (l & -> & El); [|done].
  assert (l = []) as ->.
  { destruct l as [|c l]; [done|]. exfalso.
    destruct Hokm as (N1 & D1 & _). destruct h1 as [|d1 h1]; [done|].
    simpl in D1. apply andb_true_iff in D1 as [D1 _].
    unfold tail_of in El. change (js ":") with [58] in El. simpl in El.
    injection El as <- El. destruct l as [|c2 l].
    - simpl in El. injection El as -> _. vm_compute in D1. discriminate.
    - simpl in El. injection El as <- _.
      apply no_colon_digit_app in Hp. congruence. }
  simpl in El. symmetry in El.
  destruct (tail_of_inj _ _ _ _ _ _ _ _ Hok Hokm El) as (-> & -> & -> & ->).
  rewrite (word_severity_fun _ _ _ Hw Hv).
  destruct d; simpl in *; by subst.
Qed.

Lemma line_read_back_witness :
  let path := js "C:\src\main.zig" in
  let msg := js "expected ';' after 'x:1:2: error: y'" in
  let ln := path ++ js ":12:007: warning: " ++ msg in
  zig_shape ln path (js "12") (js "007") (js "warning") msg
  /\ no_colon_digit path = true
  /\ word_severity (js "warning") warning
  /\ parseOutput [] ln "main.zig" "."
     = Normal [Diagnostic (numeral (js "12")) (numeral (js "007"))
                 warning msg]
  /\ (decimal (js "12") < 2 ^ 53 ->
      numeral (js "12") = Num (Z.of_N (decimal (js "12"))))
  /\ (decimal (js "007") < 2 ^ 53 ->
      numeral (js "007") = Num (Z.of_N (decimal (js "007")))).
Proof.
  intros path msg ln.
  assert (zig_shape ln path (js "12") (js "007") (js "warning") msg) as Hs.
  { unfold zig_shape. split; [vm_compute; reflexivity|].
    split; [discriminate|]. split; [vm_compute; reflexivity|].
    split; [discriminate|]. split; [vm_compute; reflexivity|].
    split; [discriminate|]. split; [vm_compute; reflexivity|].
    split; [right; left; reflexivity|].
    split; [discriminate | vm_compute; reflexivity]. }
  assert (no_colon_digit path = true) as Hp by (vm_compute; reflexivity).
  split; [exact Hs|]. split; [exact Hp|]. split; [exact ws_warning|].
  exact (line_read_back [] ln path (js "12") (js "007") (js "warning") msg
           warning "main.zig"%string "."%string Hs Hp ws_warning).
Defined.

(** The numeral 9007199254740993 is 2^53 + 1 and reads as 2^53; a
    numeral of 310 digits reads as Infinity. *)
Example numeral_rounds :
  numeral (js "9007199254740993") = Num 9007199254740992
  /\ numeral (js "9007199254740995") = Num 9007199254740996
  /\ numeral (49 :: repeat 48 309%nat) = Infinity false.
Proof. repeat split; vm_compute; reflexivity. Qed.

(** X2: the diagnostics are, one for one and in order, what the matched
    lines of stderr read as: each is the first reading of its own line,
    the one with the shortest path, because the pattern is applied at
    the first place of the line where it fits; line and column are the
    Numbers of its numerals, the severity is that of its word, and the
    message is all that follows. A line reads as one diagnostic only. *)
Theorem diagnostic_is_first_reading so se f r :
  exists ds,
    parseOutput so se f r = Normal ds
    /\ Forall2 reads (matched_lines se) ds
    /\ forall ln d d', reads ln d -> reads ln d' -> d = d'.
Proof.
  destruct (parseOutput_reads so se f r) as (ds & H & Hr).
  exists ds. split; [exact H|]. split; [exact Hr | apply reads_unique].
Qed.

(** X3: a line that holds a carriage return, a line separator or a
    paragraph separator gives no diagnostic: output with CR LF line ends
    is read as empty. *)
Theorem terminated_lines_give_nothing so se f r :
  (forall ln, In ln (split_nl se) ->
     ln = [] \/ exists c, In c ln /\ isLineTerminator c = true) ->
  parseOutput so se f r = Normal [].
Proof.
  intros H. rewrite parseOutput_eq. f_equal. apply omap_none.
  intros ln Hln. destruct (line_diagnostic ln) as [d|] eqn:Hd; [|done].
  exfalso. apply line_diagnostic_sound in Hd as (path & ? & ? & ? & ? & Hs & _).
  pose proof (shape_no_terminator _ _ _ _ _ _ Hs) as Hnt.
  destruct (H ln Hln) as [-> | (c & Hc & Ht)].
  - destruct Hs as (E & Np & _). by destruct path.
  - rewrite forallb_forall in Hnt. specialize (Hnt c Hc).
    unfold not_terminator in Hnt. by rewrite Ht in Hnt.
Qed.

Lemma terminated_lines_give_nothing_witness :
  let CR := [0x0D] in
  let se := js "a.zig:1:2: error: x" ++ CR ++ LF
            ++ js "a.zig:3:4: warning: y" ++ CR ++ LF in
  (forall ln, In ln (split_nl se) ->
     ln = [] \/ exists c, In c ln /\ isLineTerminator c = true)
  /\ parseOutput [] se "a.zig" "." = Normal [].
Proof.
  intros CR se.
  assert (forall ln, In ln (split_nl se) ->
            ln = [] \/ exists c, In c ln /\ isLineTerminator c = true) as H.
  { intros ln Hln. vm_compute in Hln.
    destruct Hln as [<- | [<- | [<- | []]]].
    - right. exists 13. split; [|reflexivity].
      simpl. repeat (first [left; reflexivity | right]).
    - right. exists 13. split; [|reflexivity].
      simpl. repeat (first [left; reflexivity | right]).
    - left. reflexivity. }
  split; [exact H|].
  exact (terminated_lines_give_nothing [] se "a.zig"%string "."%string H).
Defined.

(** X4: reading is line by line: the diagnostics of two outputs joined
    by a line feed are those of the first followed by those of the
    second. *)
Theorem parseOutput_app so a b f r :
  exists da db,
    parseOutput so a f r = Normal da
    /\ parseOutput so b f r = Normal db
    /\ parseOutput so (a ++ LF ++ b) f r = Normal (da ++ db).
Proof.
  exists (omap line_diagnostic (split_nl a)),
         (omap line_diagnostic (split_nl b)).
  rewrite !parseOutput_eq, split_nl_app, omap_app. done.
Qed.

(** X5: for each diagnostic, the message is the unchanged end of its
    own line, right after the severity word of the first reading and
    its colon and space; it is never empty and holds no line
    terminator; and line and column are never NaN and never negative. *)
Theorem message_is_rest_of_line so se f r :
  exists ds,
    parseOutput so se f r = Normal ds
    /\ Forall2
         (fun ln d =>
            exists path g1 g2 g3,
              first_reading ln path g1 g2 g3 (message d)
              /\ ln = (path ++ js ":" ++ g1 ++ js ":" ++ g2 ++ js ": " ++ g3)
                      ++ js ": " ++ message d
              /\ message d <> []
              /\ forallb not_terminator (message d) = true
              /\ not_negative (line d) /\ not_negative (column d))
         (matched_lines se) ds.
Proof.
  destruct (parseOutput_reads so se f r) as (ds & H & Hr).
  exists ds. split; [exact H|].
  eapply Forall2_impl; [exact Hr|].
  intros ln d (path & g1 & g2 & g3 & g4 & Hf & Hl & Hc & _ & <-).
  exists path, g1, g2, g3.
  pose proof Hf as [(E & _ & _ & _ & _ & _ & _ & _ & N4 & T4) _].
  split; [exact Hf|]. split; [by rewrite E, <- !app_assoc|].
  split; [done|]. split; [done|]. rewrite Hl, Hc.
  split; apply to_number_not_negative.
Qed.

End ZigMore.

(* ================================================================== *)
(** ** More about the status display and the help *)
(* ================================================================== *)

Module StatusMore.
Import JS Status StatusFacts.
Local Open Scope string_scope.

(** *** [Promise.all] waits for every promise *)

Lemma promise_all_complete {A} (values : list A) sched :
  (forall i, (i < length values)%nat -> i ∈ sched) ->
  promise_all values sched = Some values.
Proof.
  intros Hall. unfold promise_all.
  assert (foldl (settle values) (replicate (length values) None) sched
          = Some <$> values) as ->.
  { apply list_eq. intros i.
    rewrite foldl_settle_lookup by apply length_replicate.
    rewrite list_lookup_fmap. destruct (decide (i ∈ sched)) as [|Hn]; [done|].
    assert (length values <= i)%nat as Hge.
    { destruct (le_lt_dec (length values) i); [done|]. by apply Hall in l. }
    rewrite (proj2 (lookup_ge_None values i)) by done. simpl.
    apply lookup_ge_None. by rewrite length_replicate. }
  by apply mapM_fmap_Some.
Qed.

Lemma promise_all_pending {A} (values : list A) sched i :
  (i < length values)%nat -> i ∉ sched -> promise_all values sched = None.
Proof.
  intros Hi Hn. unfold promise_all. apply mapM_None, Exists_exists.
  exists None. split; [|done]. apply list_elem_of_lookup. exists i.
  rewrite foldl_settle_lookup by apply length_replicate.
  rewrite decide_False by done. by apply lookup_replicate.
Qed.

Lemma check_name execCommand lang :
  p_name (check execCommand lang) = name lang
  /\ p_code (check execCommand lang) = code lang
  /\ p_install (check execCommand lang) = install lang.
Proof. unfold check. by destruct (execCommand _). Qed.

Lemma status_messages_eq execCommand loadConfig sched msgs :
  status_messages execCommand loadConfig sched = Some msgs ->
  msgs = in_request_order execCommand loadConfig.
Proof.
  unfold status_messages, in_request_order.
  destruct (read_config loadConfig) as [gd dl]. cbn [fst snd].
  destruct (promise_all _ sched) as [results|] eqn:Hr; [|discriminate].
  apply promise_all_ordered in Hr as ->.
  rewrite foldl_push, map_map. congruence.
Qed.

(** X6: the status display is produced exactly when every probe has
    completed: one probe that never settles holds back the whole
    display, and nothing is ever displayed in part. *)
Theorem status_waits_for_every_probe execCommand loadConfig sched :
  is_Some (status_messages execCommand loadConfig sched)
  <-> forall i, (i < length languages)%nat -> i ∈ sched.
Proof.
  unfold status_messages. destruct (read_config loadConfig) as [gd dl].
  split.
  - intros [msgs H] i Hi. destruct (decide (i ∈ sched)) as [|Hn]; [done|].
    rewrite (promise_all_pending _ sched i) in H; [done | | done].
    by rewrite length_map.
  - intros Hall. rewrite (promise_all_complete _ sched); [by eexists|].
    intros i Hi. apply Hall. by rewrite length_map in Hi.
Qed.

(** *** What the lines say *)

Lemma header_differs_lines (a b : string) : nl ++ a <> "  " ++ b.
Proof. discriminate. Qed.

Lemma is_true_spec flag : is_true flag = true <-> flag = Some true.
Proof. unfold is_true. apply bool_decide_eq_true. Qed.

Lemma elem_of_add_if flag n (s : gset string) m :
  m ∈ add_if flag n s <-> (m = n /\ flag = Some true) \/ m ∈ s.
Proof.
  unfold add_if. destruct (is_true flag) eqn:E.
  - apply is_true_spec in E. rewrite elem_of_union, elem_of_singleton.
    tauto.
  - split; [by right | intros [[_ H] | H]; [|done]].
    apply is_true_spec in H. congruence.
Qed.

(** A name is in [disabledLanguages] exactly when the flag read for it
    is [true]. *)
Lemma disabled_iff_flag config n :
  n ∈ (read_config (Normal config)).2 <-> flag_of n config = Some true.
Proof.
  cbn [read_config snd]. rewrite !elem_of_add_if, elem_of_empty.
  unfold flag_of. repeat case_bool_decide; subst; split.
  all: try (intros Hd;
            repeat (destruct Hd as [[? ?] | Hd]; [congruence|]);
            by destruct Hd).
  all: intros Hd; try discriminate;
    repeat first [left; split; [reflexivity | exact Hd] | right].
Qed.

Lemma not_disabled_empty n : isDisabled false ∅ n = false.
Proof.
  unfold isDisabled. simpl. apply bool_decide_eq_false.
  apply not_elem_of_empty.
Qed.

Lemma isDisabled_spec config n :
  isDisabled (read_config (Normal config)).1 (read_config (Normal config)).2 n
  = true
  <-> disable config = Some true \/ flag_of n config = Some true.
Proof.
  unfold isDisabled. rewrite orb_true_iff, bool_decide_eq_true.
  rewrite disabled_iff_flag. cbn [read_config fst].
  by rewrite is_true_spec.
Qed.

Lemma status_line_disabled gd dl execCommand lang :
  isDisabled gd dl (name lang) = true ->
  status_line gd dl (check execCommand lang) = disabled_line lang.
Proof.
  intros H. unfold status_line, disabled_line.
  destruct (check_name execCommand lang) as (-> & -> & _). by rewrite H.
Qed.

Lemma status_line_enabled gd dl execCommand lang :
  isDisabled gd dl (name lang) = false ->
  status_line gd dl (check execCommand lang)
  = match execCommand [command lang; versionArg lang] with
    | Normal 0%Z => available_line lang
    | _ => not_found_line lang
    end.
Proof.
  intros H. unfold status_line, available_line, not_found_line.
  destruct (check_name execCommand lang) as (-> & -> & ->). rewrite H.
  unfold check. destruct (execCommand _) as [z|]; [|done].
  by destruct z.
Qed.

(** X7: with the global flag set, every language is displayed as
    disabled, after the banner, whatever the probes returned. *)
Theorem global_disable_hides_probes execCommand config sched msgs :
  disable config = Some true ->
  status_messages execCommand (Normal config) sched = Some msgs ->
  msgs = ([status_header; disabled_banner]
          ++ map disabled_line languages)%list.
Proof.
  intros Hd H%status_messages_eq. subst msgs. unfold in_request_order.
  replace (read_config (Normal config)).1 with true
    by (cbn [read_config fst]; symmetry; by apply is_true_spec).
  cbn [preamble app]. do 2 f_equal. apply map_ext. intros lang.
  by apply status_line_disabled.
Qed.

Lemma global_disable_hides_probes_witness :
  let config :=
    {| disable := Some true; disableScala := None;
       disableTypeScript := None; disablePython := None;
       disableGo := None; disableRust := None; disableJava := None;
       disableCpp := None; disablePhp := None; disableLua := None;
       disableElixir := None; disableTerraform := None;
       disableZig := Some false |} in
  let execCommand := fun _ : list string => Normal 0%Z in
  let sched := rev (seq 0 12) in
  let msgs := ([status_header; disabled_banner]
               ++ map disabled_line languages)%list in
  disable config = Some true
  /\ status_messages execCommand (Normal config) sched = Some msgs
  /\ msgs = ([status_header; disabled_banner]
             ++ map disabled_line languages)%list.
Proof.
  intros config execCommand sched msgs.
  assert (disable config = Some true) as Hd by reflexivity.
  assert (status_messages execCommand (Normal config) sched = Some msgs)
    as H by (vm_compute; reflexivity).
  split; [exact Hd|]. split; [exact H|].
  exact (global_disable_hides_probes execCommand config sched msgs Hd H).
Defined.

(** X8: a configuration that cannot be loaded disables nothing: after
    the header, the line of each language says Available when its
    version command exited with 0, and Not found with the install hint
    for any other exit code or a rejected command. *)
Theorem unreadable_config_disables_nothing execCommand e sched msgs :
  status_messages execCommand (Throw e) sched = Some msgs ->
  msgs = status_header
         :: map (fun lang =>
                   match execCommand [command lang; versionArg lang] with
                   | Normal 0%Z => available_line lang
                   | _ => not_found_line lang
                   end) languages.
Proof.
  intros H%status_messages_eq. subst msgs. unfold in_request_order.
  cbn [read_config fst snd preamble app]. f_equal. apply map_ext.
  intros lang. apply status_line_enabled, not_disabled_empty.
Qed.

Lemma unreadable_config_disables_nothing_witness :
  let execCommand := fun argv : list string =>
    if bool_decide (argv = ["zig"; "version"]) then Normal 0%Z
    else if bool_decide (argv = ["go"; "version"]) then Normal 127%Z
    else Throw TypeError in
  let sched := [11; 3; 0; 7; 1; 2; 4; 10; 5; 6; 9; 8]%nat in
  let msgs :=
    status_header
    :: map (fun lang =>
              match execCommand [command lang; versionArg lang] with
              | Normal 0%Z => available_line lang
              | _ => not_found_line lang
              end) languages in
  status_messages execCommand (Throw TypeError) sched = Some msgs
  /\ msgs = status_header
            :: map (fun lang =>
                      match execCommand [command lang; versionArg lang] with
                      | Normal 0%Z => available_line lang
                      | _ => not_found_line lang
                      end) languages.
Proof.
  intros execCommand sched msgs.
  assert (status_messages execCommand (Throw TypeError) sched = Some msgs)
    as H by (vm_compute; reflexivity).
  split; [exact H|].
  exact (unreadable_config_disables_nothing execCommand TypeError sched
           msgs H).
Defined.

Lemma line_disabled_iff gd dl execCommand lang :
  status_line gd dl (check execCommand lang) = disabled_line lang
  <-> isDisabled gd dl (name lang) = true.
Proof.
  destruct (isDisabled _ _ (name lang)) eqn:E.
  - split; [done|]. intros _. by apply status_line_disabled.
  - rewrite (status_line_enabled _ _ _ _ E). split; [|done].
    unfold disabled_line, available_line, not_found_line.
    destruct (execCommand _) as [[| |]|]; discriminate.
Qed.

(** X9: the line of a language is the DISABLED line exactly when the
    global flag or the flag read for the name of that language is
    [true]; a flag that is absent or [false] does not disable. *)
Theorem language_line_disabled_iff execCommand config lang :
  status_line (read_config (Normal config)).1
    (read_config (Normal config)).2 (check execCommand lang)
  = disabled_line lang
  <-> disable config = Some true
      \/ flag_of (name lang) config = Some true.
Proof.
  rewrite <- isDisabled_spec.
  destruct (isDisabled _ _ (name lang)) eqn:E.
  - split; [done|]. intros _. by apply status_line_disabled.
  - rewrite (status_line_enabled _ _ _ _ E). split; [|done].
    unfold disabled_line, available_line, not_found_line.
    destruct (execCommand _) as [[| |]|]; discriminate.
Qed.

(** X10: every language of the list has a flag of its own: with only
    that flag set to [true], and all the others to [false], that
    language is displayed as disabled and no other language is. *)
Theorem language_disabled_alone execCommand lang lang' :
  In lang languages -> In lang' languages ->
  (status_line (read_config (Normal (only_flag (name lang)))).1
     (read_config (Normal (only_flag (name lang)))).2
     (check execCommand lang')
   = disabled_line lang'
   <-> lang' = lang).
Proof.
  intros Hin Hin'. rewrite line_disabled_iff.
  simpl in Hin, Hin'.
  repeat (destruct Hin as [<- | Hin]); [..|done];
    repeat (destruct Hin' as [<- | Hin']); try done;
    split; intros E; first [reflexivity | discriminate | vm_compute in E;
                            discriminate | vm_compute; reflexivity].
Qed.

Lemma language_disabled_alone_witness :
  let execCommand := fun _ : list string => Normal 0%Z in
  let cpp := {| name := "C/C++"; code := "cpp"; command := "gcc";
                versionArg := "--version";
                install := "Install GCC or Clang" |} in
  In cpp languages /\ In cpp languages
  /\ (status_line (read_config (Normal (only_flag (name cpp)))).1
        (read_config (Normal (only_flag (name cpp)))).2
        (check execCommand cpp)
      = disabled_line cpp
      <-> cpp = cpp).
Proof.
  intros execCommand cpp.
  assert (In cpp languages) as Hin
    by (simpl; repeat (first [left; reflexivity | right])).
  split; [exact Hin|]. split; [exact Hin|].
  exact (language_disabled_alone execCommand cpp cpp Hin Hin).
Defined.

Lemma showStatus_complete execCommand loadConfig sched :
  (forall i, (i < length languages)%nat -> i ∈ sched) ->
  showStatus execCommand loadConfig sched
  = Some (String.concat nl (in_request_order execCommand loadConfig)).
Proof.
  intros Hall. unfold showStatus.
  destruct (status_messages execCommand loadConfig sched) as [msgs|] eqn:E.
  - by rewrite (status_messages_eq _ _ _ _ E).
  - unfold status_messages in E.
    destruct (read_config loadConfig) as [gd dl].
    rewrite (promise_all_complete _ sched) in E; [done|].
    intros i Hi. apply Hall. by rewrite length_map in Hi.
Qed.

(** X11: once every probe has completed, [showHelp] returns the help
    text followed by the status in request order; and whatever [log]
    argument it is given, even a falsy one, the status is first logged
    through [console.log], because [showStatus] is called with its
    default, before the whole text goes to [log]. *)
Theorem showHelp_logs_status_to_console execCommand loadConfig sched log :
  (forall i, (i < length languages)%nat -> i ∈ sched) ->
  let status :=
    String.concat nl (in_request_order execCommand loadConfig) in
  showHelp execCommand loadConfig sched log
  = Some (((console_log, status) :: log_call log (helpText ++ status))%list,
          helpText ++ status).
Proof.
  intros Hall status. unfold showHelp, showStatus_log.
  by rewrite (showStatus_complete _ _ _ Hall).
Qed.

Lemma showHelp_logs_status_to_console_witness :
  let execCommand := fun _ : list string => Normal 0%Z in
  let sched := [11; 3; 0; 7; 1; 2; 4; 10; 5; 6; 9; 8; 3; 40]%nat in
  let status :=
    String.concat nl (in_request_order execCommand (Throw TypeError)) in
  (forall i, (i < length languages)%nat -> i ∈ sched)
  /\ showHelp execCommand (Throw TypeError) sched Falsy
     = Some ([(console_log, status)], helpText ++ status).
Proof.
  intros execCommand sched status.
  assert (forall i, (i < length languages)%nat -> i ∈ sched) as Hall.
  { intros i Hi. simpl in Hi.
    do 12 (destruct i as [|i];
           [apply (bool_decide_unpack _); vm_compute; reflexivity|]).
    lia. }
  split; [exact Hall|].
  exact (showHelp_logs_status_to_console execCommand (Throw TypeError)
           sched Falsy Hall).
Defined.

End StatusMore.
